(** * Block storage trees of [pyomo.core.base.component_block]

    A verification development for the block classes of
    [component_block.py]: the shared traversal engine of [_block_base]
    ([preorder_traversal], [postorder_traversal], [components], [blocks],
    [generate_names]), the two [collect_ctypes] implementations, and the
    attribute interception of the dynamic [block] class
    ([__setattr__] / [__delattr__]) together with [StaticBlock.children].

    The file has two parts.  [Module Tree] embeds the traversal engine over
    storage trees.  [Module Heap] embeds the mutation protocol over a store
    of objects with identity, parent back-references and per-block
    indices, and the attribute protocol of [StaticBlock].  The facts
    follow in [TreeFacts], [HeapFacts], [TraversalFacts], [BlockFacts] and
    [StaticFacts]. *)

From stdpp Require Import gmap strings list fin_maps pretty.

Set Default Proof Using "Type".

(** ** Shared vocabulary *)

(** The category tag ([ctype]) of a stored object.  The engine only ever
    compares it, and singles out one tag, [Block]. *)
Inductive ctype :=
| Block
| Category (name : string).

#[global] Instance ctype_eq_dec : EqDecision ctype.
Proof. solve_decision. Defined.

#[global] Instance ctype_countable : Countable ctype.
Proof.
  refine (inj_countable'
            (λ c, match c with Block => None | Category s => Some s end)
            (λ o, match o with None => Block | Some s => Category s end) _).
  by intros [].
Defined.

(** Exceptions that the modelled methods raise. *)
Inductive exn :=
| AssertionError
| ValueError
| KeyError
| AttributeError
| StopIteration.

#[global] Instance exn_eq_dec : EqDecision exn.
Proof. solve_decision. Defined.

(** Outcome of a call: a value or a raised exception. *)
Inductive outcome (A : Type) :=
| Ok (a : A)
| Raise (e : exn).
Arguments Ok {A} a.
Arguments Raise {A} e.

(** The [active] argument of every query: [None], [True] or [False]. *)
Definition active_arg := option bool.

(** [active in (None, True)] *)
Definition active_in_None_True (active : active_arg) : bool :=
  match active with
  | None => true
  | Some b => b
  end.

(** [active is None] *)
Definition is_None (active : active_arg) : bool :=
  match active with None => true | Some _ => false end.

(** Truth value of [active] in [if active and ...]. *)
Definition truthy (active : active_arg) : bool :=
  match active with Some true => true | _ => false end.

(** The [ctype] argument: [None] stands for the sentinel [_no_ctype]. *)
Definition ctype_arg := option ctype.

(** [ctype is _no_ctype] *)
Definition is_no_ctype (ctype : ctype_arg) : bool :=
  match ctype with None => true | Some _ => false end.

(** [c is ctype] for an object category [c] and the argument [ctype]. *)
Definition ctype_is (c : ctype) (ctype : ctype_arg) : bool :=
  bool_decide (ctype = Some c).

(** Storage keys: attribute names on blocks, positions in list containers,
    and [None], the default [root_key]. *)
Inductive key :=
| KeyNone
| KeyStr (s : string)
| KeyInt (i : Z).

#[global] Instance key_eq_dec : EqDecision key.
Proof. solve_decision. Defined.

(** [str], the default [convert] of [generate_names]. *)
Definition str (k : key) : string :=
  match k with
  | KeyNone => "None"
  | KeyStr s => s
  | KeyInt i => pretty i
  end.

Module Tree.

(** ** Storage trees *)

(** The two classes that implement [IBlockStorage]. *)
Inductive block_class := Dynamic | Static.

(** An object of the storage tree, with its identity [oid].
    - [Leaf]: an [IComponent] that is not a container
      ([_is_component = True], [_is_container = False]); [act] is its
      [active] attribute when it has one.
    - [Blk]: a [block] or [StaticBlock] ([_is_component = True],
      [_is_container = True], category [Block]); [children] lists the
      stored objects in declaration order, as [children(return_key=True)]
      yields them.
    - [Cont]: a list or dict container ([_is_component = False],
      [_is_container = True]) such as [block_list]; [act] is [Some _]
      exactly for the [_IActiveComponentContainer] classes. *)
#[local] Unset Elimination Schemes.
Inductive entity :=
| Leaf (oid : nat) (ct : ctype) (act : option bool)
| Blk (oid : nat) (cls : block_class) (act : bool)
      (children : list (key * entity))
| Cont (oid : nat) (ct : ctype) (act : option bool)
       (children : list (key * entity)).
#[local] Set Elimination Schemes.

Definition oid (e : entity) : nat :=
  match e with
  | Leaf i _ _ | Blk i _ _ _ | Cont i _ _ _ => i
  end.

(** [e.ctype] *)
Definition ctype_of (e : entity) : ctype :=
  match e with
  | Leaf _ ct _ | Cont _ ct _ _ => ct
  | Blk _ _ _ _ => Block
  end.

(** [e._is_component] *)
Definition _is_component (e : entity) : bool :=
  match e with
  | Leaf _ _ _ | Blk _ _ _ _ => true
  | Cont _ _ _ _ => false
  end.

(** [e._is_container] *)
Definition _is_container (e : entity) : bool :=
  match e with
  | Leaf _ _ _ => false
  | Blk _ _ _ _ | Cont _ _ _ _ => true
  end.

(** The [active] attribute, when the object has one. *)
Definition active_attr (e : entity) : option bool :=
  match e with
  | Leaf _ _ a | Cont _ _ a _ => a
  | Blk _ _ a _ => Some a
  end.

(** [getattr(e, "active", True)] *)
Definition getattr_active (e : entity) : bool :=
  default true (active_attr e).

(** [isinstance(e, _IActiveComponentContainer)] *)
Definition is_active_container (e : entity) : bool :=
  match e with
  | Leaf _ _ _ => false
  | Blk _ _ _ _ => true
  | Cont _ _ a _ => bool_decide (is_Some a)
  end.

(** The stored (key, object) pairs of a container. *)
Definition stored (e : entity) : list (key * entity) :=
  match e with
  | Leaf _ _ _ => []
  | Blk _ _ _ ch | Cont _ _ _ ch => ch
  end.

(** [self.children(ctype=ctype, return_key=True)] on a block.  Without a
    category this is the declaration-order index; with one it is the
    category bucket, whose entries are the entries of the order index
    that carry this category ([StaticBlock.children] filters its slots in
    the same way).  The bucket of a dynamic block is a plain dict; it is
    listed here in declaration order, and nothing below depends on the
    order in which a bucket is listed. *)
Definition children (self : entity) (ctype : ctype_arg)
  : list (key * entity) :=
  match ctype with
  | None => stored self
  | Some c => filter (λ kc, ctype_of kc.2 = c) (stored self)
  end.

(** Depth of nesting below an object; bounds the recursion depth of every
    traversal started at it. *)
Fixpoint height (e : entity) : nat :=
  match e with
  | Leaf _ _ _ => 0
  | Blk _ _ _ ch | Cont _ _ _ ch =>
      S (foldr (λ kc h, height kc.2 `max` h) 0 ch)
  end.

(** ** List and dict containers

    The container classes ([ComponentList], [ComponentDict] and the
    [block_list] / [block_dict] built on them) are imported by
    [component_block.py]; their own traversal methods are what the block
    traversals call on a stored container. *)

(** Modelled from the spec: [preorder_traversal] of a list or dict
    container, which is defined with the container classes.  The
    container is visited first, then each stored object in order; a
    stored component (a block included) is yielded as it is, a nested
    container is walked; an object whose [active] flag is [False] is
    skipped with everything below it when [active=True] is requested. *)
Fixpoint container_preorder (active : active_arg) (root_key : key)
    (self : entity) : list (key * entity) :=
  match self with
  | Cont _ _ _ ch =>
      if negb (is_None active) && negb (getattr_active self) then []
      else
        (root_key, self) ::
        flat_map (λ kc,
          if is_None active || getattr_active kc.2 then
            if _is_component kc.2 then [(kc.1, kc.2)]
            else container_preorder active kc.1 kc.2
          else []) ch
  | _ => []
  end.

(** Modelled from the spec: [postorder_traversal] of a list or dict
    container; the same rules, the container after what it stores. *)
Fixpoint container_postorder (active : active_arg) (root_key : key)
    (self : entity) : list (key * entity) :=
  match self with
  | Cont _ _ _ ch =>
      if negb (is_None active) && negb (getattr_active self) then []
      else
        flat_map (λ kc,
          if is_None active || getattr_active kc.2 then
            if _is_component kc.2 then [(kc.1, kc.2)]
            else container_postorder active kc.1 kc.2
          else []) ch
        ++ [(root_key, self)]
  | _ => []
  end.

(** Modelled from the spec: [components()] of a list or dict container,
    the stored components in order, nested containers flattened. *)
Fixpoint container_components (self : entity) : list entity :=
  match self with
  | Cont _ _ _ ch =>
      flat_map (λ kc,
        if _is_component kc.2 then [kc.2]
        else container_components kc.2) ch
  | _ => []
  end.

(** ** The traversal engine of [_block_base] *)

(** The loop body [for key, child in self.children(return_key=True)],
    which [preorder_traversal] and [postorder_traversal] share word for
    word except for the traversal method they call: [block_traversal] is
    that method on a block (with [ctype], [active] and
    [include_parent_blocks] passed on), [container_traversal] that method
    on a list or dict container (with [active] passed on).  The code
    takes every component found in a container of blocks for a block; in
    a tree that is not [well_typed] such a component can be a leaf, which
    has no traversal method, and the model lets it yield what a block
    that stores nothing yields. *)
Definition visit_child
    (block_traversal container_traversal : key → entity → list (key * entity))
    (ctype : ctype_arg) (active : active_arg) (include_parent_blocks : bool)
    (kc : key * entity) : list (key * entity) :=
  let '(key, child) := kc in
  if is_no_ctype ctype || ctype_is (ctype_of child) ctype
     || bool_decide (ctype_of child = Block) then
    if is_None active || getattr_active child then
      if negb (_is_container child) then
        (* not a block and not a container *)
        [(key, child)]
      else if negb (_is_component child) then
        (* not a block (but possibly a container of blocks) *)
        if bool_decide (ctype_of child = Block) then
          flat_map (λ '(obj_key, obj),
            if negb (_is_component obj) then
              (* a container of blocks *)
              if is_no_ctype ctype || ctype_is Block ctype
                 || include_parent_blocks
              then [(obj_key, obj)] else []
            else
              (* a block *)
              block_traversal obj_key obj)
            (container_traversal key child)
        else container_traversal key child
      else
        (* a block *)
        block_traversal key child
    else []
  else [].

(** What the traversal yields for [self] itself. *)
Definition yield_self (ctype : ctype_arg) (include_parent_blocks : bool)
    (root_key : key) (self : entity) : list (key * entity) :=
  if include_parent_blocks || is_no_ctype ctype || ctype_is Block ctype
  then [(root_key, self)] else [].

(** Body of [_block_base.preorder_traversal] with [return_key=True].
    [fuel] bounds the depth of the nested generator calls. *)
Fixpoint preorder_fuel (fuel : nat) (ctype : ctype_arg) (active : active_arg)
    (include_parent_blocks : bool) (root_key : key) (self : entity)
  : list (key * entity) :=
  match fuel with
  | O => []
  | S fuel =>
    if truthy active && negb (getattr_active self) then []
    else
      yield_self ctype include_parent_blocks root_key self
      ++
      flat_map (visit_child
                  (preorder_fuel fuel ctype active include_parent_blocks)
                  (container_preorder active)
                  ctype active include_parent_blocks)
               (children self None)
  end.

(** Body of [_block_base.postorder_traversal] with [return_key=True]. *)
Fixpoint postorder_fuel (fuel : nat) (ctype : ctype_arg) (active : active_arg)
    (include_parent_blocks : bool) (root_key : key) (self : entity)
  : list (key * entity) :=
  match fuel with
  | O => []
  | S fuel =>
    if truthy active && negb (getattr_active self) then []
    else
      flat_map (visit_child
                  (postorder_fuel fuel ctype active include_parent_blocks)
                  (container_postorder active)
                  ctype active include_parent_blocks)
               (children self None)
      ++
      yield_self ctype include_parent_blocks root_key self
  end.

(** Body of [_block_base.components]. *)
Fixpoint components_fuel (fuel : nat) (ctype : ctype_arg) (active : active_arg)
    (descend_into : bool) (self : entity) : list entity :=
  match fuel with
  | O => []
  | S fuel =>
    if truthy active && negb (getattr_active self) then []
    else
      flat_map (λ '(_, child),
        if is_None active || getattr_active child then
          if _is_component child then [child]
          else
            (* child is a container (but not a block) *)
            if negb (is_None active) && is_active_container child then
              filter (λ component, getattr_active component = true)
                     (container_components child)
            else container_components child
        else []) (children self ctype)
      ++
      (if descend_into then
         flat_map (λ '(_, child),
           if is_None active || getattr_active child then
             if _is_component child then
               (* child is a block *)
               components_fuel fuel ctype active descend_into child
             else
               (* child is a container of blocks, but not a block itself *)
               flat_map (λ _comp,
                 if is_None active || getattr_active _comp then
                   components_fuel fuel ctype active descend_into _comp
                 else []) (container_components child)
           else []) (children self (Some Block))
       else [])
  end.

(** The traversals without the entry assertion, with fuel for the whole
    depth of the tree below [self]: the nesting of the calls never
    exceeds [height self], so that these satisfy the recursive equations
    of the source ([preorder_unfold], [postorder_unfold],
    [components_unfold]). *)
Definition preorder (ctype : ctype_arg) (active : active_arg)
    (include_parent_blocks : bool) (root_key : key) (self : entity) :=
  preorder_fuel (S (height self)) ctype active include_parent_blocks
                root_key self.

Definition postorder (ctype : ctype_arg) (active : active_arg)
    (include_parent_blocks : bool) (root_key : key) (self : entity) :=
  postorder_fuel (S (height self)) ctype active include_parent_blocks
                 root_key self.

Definition components_body (ctype : ctype_arg) (active : active_arg)
    (descend_into : bool) (self : entity) :=
  components_fuel (S (height self)) ctype active descend_into self.

(** Body of [_block_base.blocks]. *)
Definition blocks_body (active : active_arg) (descend_into : bool)
    (self : entity) : list entity :=
  if is_None active || getattr_active self then
    self :: components_body (Some Block) active descend_into self
  else [].

(** What a traversal yields: the object, or the (key, object) pair when
    [return_key=True]. *)
Inductive item :=
| Obj (obj : entity)
| KeyObj (k : key) (obj : entity).

Definition emit (return_key : bool) (ko : key * entity) : item :=
  if return_key then KeyObj ko.1 ko.2 else Obj ko.2.

(** The methods as a caller sees them, consumed to the end.  Each starts
    with [assert active in (None, True)]; the nested calls pass [active]
    on unchanged, so the assertion is settled by the outermost call. *)
Definition preorder_traversal (ctype : ctype_arg) (active : active_arg)
    (include_parent_blocks return_key : bool) (root_key : key)
    (self : entity) : outcome (list item) :=
  if negb (active_in_None_True active) then Raise AssertionError
  else Ok (emit return_key <$>
             preorder ctype active include_parent_blocks root_key self).

Definition postorder_traversal (ctype : ctype_arg) (active : active_arg)
    (include_parent_blocks return_key : bool) (root_key : key)
    (self : entity) : outcome (list item) :=
  if negb (active_in_None_True active) then Raise AssertionError
  else Ok (emit return_key <$>
             postorder ctype active include_parent_blocks root_key self).

Definition components (ctype : ctype_arg) (active : active_arg)
    (descend_into : bool) (self : entity) : outcome (list entity) :=
  if negb (active_in_None_True active) then Raise AssertionError
  else Ok (components_body ctype active descend_into self).

Definition blocks (active : active_arg) (descend_into : bool)
    (self : entity) : outcome (list entity) :=
  if negb (active_in_None_True active) then Raise AssertionError
  else Ok (blocks_body active descend_into self).

(** ** [collect_ctypes] *)

(** The branch [not descend_into] of [block.collect_ctypes].  The keys of
    [__byctype] are the categories of the stored objects. *)
Definition block_collect_ctypes_here (active : active_arg) (self : entity)
  : outcome (gset ctype) :=
  match active with
  | None => Ok (list_to_set ((ctype_of ∘ snd) <$> stored self))
  | Some true =>
      Ok (foldr (λ ctype ctypes,
                   match components_body (Some ctype) (Some true) false self
                   with
                   | _ :: _ => {[ ctype ]} ∪ ctypes (* just need 1 or more *)
                   | [] => ctypes
                   end)
                ∅ (remove_dups ((ctype_of ∘ snd) <$> stored self)))
  | Some false => Raise AssertionError (* assert active is True *)
  end.

(** The branch [not descend_into] of [StaticBlock.collect_ctypes]. *)
Definition StaticBlock_collect_ctypes_here (active : active_arg)
    (self : entity) : outcome (gset ctype) :=
  Ok (list_to_set (ctype_of <$> components_body None active false self)).

(** [blk.collect_ctypes(active=active, descend_into=False)], dispatched on
    the class of [blk]; an object that is no block has no such method. *)
Definition collect_ctypes_here (active : active_arg) (blk : entity)
  : outcome (gset ctype) :=
  if negb (active_in_None_True active) then Raise AssertionError
  else
    match blk with
    | Blk _ Dynamic _ _ => block_collect_ctypes_here active blk
    | Blk _ Static _ _ => StaticBlock_collect_ctypes_here active blk
    | _ => Raise AttributeError
    end.

(** [collect_ctypes] of both block classes: they differ only in the branch
    [not descend_into]. *)
Definition collect_ctypes (active : active_arg) (descend_into : bool)
    (self : entity) : outcome (gset ctype) :=
  if negb (active_in_None_True active) then Raise AssertionError
  else if negb descend_into then collect_ctypes_here active self
  else
    foldl (λ ctypes blk,
             match ctypes with
             | Raise e => Raise e
             | Ok s =>
                 match collect_ctypes_here active blk with
                 | Raise e => Raise e
                 | Ok t => Ok (s ∪ t)
                 end
             end)
          (Ok ∅) (blocks_body active true self).

(** ** [generate_names] *)

(** [obj.parent] for the object with identity [i] stored below [root]:
    the back-reference of a stored object designates the container that
    stores it. *)
Fixpoint parent_below (root : entity) (i : nat) : option entity :=
  match root with
  | Leaf _ _ _ => None
  | Blk _ _ _ ch | Cont _ _ _ ch =>
      if bool_decide (i ∈ (oid ∘ snd) <$> ch) then Some root
      else foldr (λ kc found,
                    match parent_below kc.2 i with
                    | Some p => Some p
                    | None => found
                    end) None ch
  end.

Section generate_names.

(** The class attributes [_child_storage_delimiter_string] and
    [_child_storage_entry_string] of the list and dict containers are
    set with those classes; [container_entry s] stands for
    [_child_storage_entry_string % s]. *)
Variable container_delimiter : string.
Variable container_entry : string → string.

(** [parent._child_storage_delimiter_string]; ["."] on [IBlockStorage]. *)
Definition _child_storage_delimiter_string (parent : entity) : string :=
  match parent with
  | Blk _ _ _ _ => "."
  | _ => container_delimiter
  end.

(** [parent._child_storage_entry_string % s]; the format is ["%s"] on
    [IBlockStorage]. *)
Definition _child_storage_entry (parent : entity) (s : string) : string :=
  match parent with
  | Blk _ _ _ _ => s
  | _ => container_entry s
  end.

(** One round of the loop [for key, obj in traversal] over the
    [ComponentMap] [names], which is keyed by object identity. *)
Definition names_step (convert : key → string) (prefix : string)
    (self : entity) (names : gmap nat string) (ko : key * entity)
  : outcome (gmap nat string) :=
  match parent_below self (oid ko.2) with
  | None => Raise AttributeError
  | Some parent =>
      let name := _child_storage_entry parent (convert ko.1) in
      if bool_decide (oid parent ≠ oid self) then
        match names !! oid parent with
        | None => Raise KeyError
        | Some parent_name =>
            Ok (<[oid ko.2 :=
                    parent_name +:+ _child_storage_delimiter_string parent
                                +:+ name]> names)
        end
      else Ok (<[oid ko.2 := prefix +:+ name]> names)
  end.

Fixpoint names_loop (convert : key → string) (prefix : string)
    (self : entity) (names : gmap nat string)
    (traversal : list (key * entity)) : outcome (gmap nat string) :=
  match traversal with
  | [] => Ok names
  | ko :: traversal =>
      match names_step convert prefix self names ko with
      | Ok names => names_loop convert prefix self names traversal
      | Raise e => Raise e
      end
  end.

(** [_block_base.generate_names] *)
Definition generate_names (ctype : ctype_arg) (active : active_arg)
    (descend_into : bool) (convert : key → string) (prefix : string)
    (self : entity) : outcome (gmap nat string) :=
  if negb (active_in_None_True active) then Raise AssertionError
  else if truthy active && negb (getattr_active self) then Ok ∅
  else if descend_into then
    (* skip the root (this block) *)
    match preorder ctype active true KeyNone self with
    | [] => Raise StopIteration
    | _ :: traversal => names_loop convert prefix self ∅ traversal
    end
  else names_loop convert prefix self ∅ (children self ctype).


End generate_names.

(** ** Objects of a tree *)

(** All objects of the tree rooted at [e], [e] first. *)
Fixpoint nodes (e : entity) : list entity :=
  e :: match e with
       | Leaf _ _ _ => []
       | Blk _ _ _ ch | Cont _ _ _ ch => flat_map (λ kc, nodes kc.2) ch
       end.

(** The objects stored, directly or not, below [e]. *)
Definition descendants (e : entity) : list entity :=
  flat_map (λ kc, nodes kc.2) (stored e).

Definition oids (e : entity) : list nat := oid <$> nodes e.

(** An object is stored at one place only: identities do not repeat. *)
Definition unique_ids (e : entity) : Prop := NoDup (oids e).

#[global] Instance unique_ids_dec e : Decision (unique_ids e).
Proof. unfold unique_ids. apply _. Defined.



(** ** Categories of a tree *)

(** [e] is a block: a component that is a container. *)
Definition is_block (e : entity) : bool := _is_component e && _is_container e.

(** [c] and what list and dict containers nest below it, down to the
    components they hold and not into those. *)
Fixpoint within (c : entity) : list entity :=
  c :: match c with
       | Cont _ _ _ ch => flat_map (λ kc, within kc.2) ch
       | _ => []
       end.

(** The categories fit the classes: the block category belongs to blocks
    and to containers of blocks, and a list or dict container holds
    objects of its own category. *)
Definition well_typed (root : entity) : Prop :=
  ∀ c, c ∈ nodes root →
    (_is_container c = false → ctype_of c ≠ Block)
    ∧ (_is_component c = false →
       ∀ kc, kc ∈ stored c → ctype_of kc.2 = ctype_of c).

(** No [StaticBlock] stores a list or dict container that holds no
    component. *)
Definition static_containers_populated (root : entity) : Prop :=
  ∀ i a ch kc,
    Blk i Static a ch ∈ nodes root → kc ∈ ch →
    _is_component kc.2 = false → container_components kc.2 ≠ [].

(** A container without an [active] flag holds components that cannot be
    deactivated. *)
Definition active_typed (root : entity) : Prop :=
  ∀ c, c ∈ nodes root → _is_component c = false → active_attr c = None →
       ∀ o, o ∈ container_components c → getattr_active o = true.



(** The components directly under a block: those it stores and those held
    by the list and dict containers it stores. *)
Definition direct_components (self : entity) : list entity :=
  flat_map (λ kc, if _is_component kc.2 then [kc.2]
                  else container_components kc.2) (stored self).

(** What [blk.collect_ctypes(active=None, descend_into=False)] returns. *)
Definition categories_here (blk : entity) : gset ctype :=
  match blk with
  | Blk _ Static _ _ => list_to_set (ctype_of <$> direct_components blk)
  | _ => list_to_set ((ctype_of ∘ snd) <$> stored blk)
  end.

#[global] Instance well_typed_dec root : Decision (well_typed root).
Proof.
  refine (match decide (Forall (λ c,
            (_is_container c = false → ctype_of c ≠ Block)
            ∧ (_is_component c = false →
               Forall (λ kc, ctype_of kc.2 = ctype_of c) (stored c)))
            (nodes root)) with
          | left H => left _
          | right H => right _
          end); unfold well_typed.
  - rewrite Forall_forall in H. intros c Hc. destruct (H c Hc) as [H1 H2].
    split; [done|]. intros Hcomp. specialize (H2 Hcomp).
    by rewrite Forall_forall in H2.
  - intros Hwt. apply H. apply Forall_forall. intros c Hc.
    destruct (Hwt c Hc) as [H1 H2]. split; [done|]. intros Hcomp.
    apply Forall_forall. by apply H2.
Defined.

(** What a [StaticBlock] stores; nothing for another object. *)
Definition static_stored (b : entity) : list (key * entity) :=
  match b with
  | Blk _ Static _ ch => ch
  | _ => []
  end.

#[global] Instance static_containers_populated_dec root :
  Decision (static_containers_populated root).
Proof.
  refine (match decide (Forall (λ b,
            Forall (λ kc, _is_component kc.2 = false →
                          container_components kc.2 ≠ [])
                   (static_stored b)) (nodes root)) with
          | left H => left _
          | right H => right _
          end); unfold static_containers_populated.
  - rewrite Forall_forall in H. intros i a ch kc Hb Hkc.
    specialize (H _ Hb). simpl in H.
    rewrite Forall_forall in H. by apply H.
  - intros Hpop. apply H. apply Forall_forall.
    intros [|i [] a ch|] Hb; simpl; try done.
    apply Forall_forall. intros kc Hkc. by apply (Hpop i a ch).
Defined.

#[global] Instance active_typed_dec root : Decision (active_typed root).
Proof.
  refine (match decide (Forall (λ c,
            _is_component c = false → active_attr c = None →
            Forall (λ o, getattr_active o = true) (container_components c))
            (nodes root)) with
          | left H => left _
          | right H => right _
          end); unfold active_typed.
  - rewrite Forall_forall in H. intros c Hc H1 H2.
    specialize (H c Hc H1 H2). by rewrite Forall_forall in H.
  - intros Hat. apply H. apply Forall_forall. intros c Hc H1 H2.
    apply Forall_forall. by apply Hat.
Defined.




(** ** The scenario tree

    Root block [M]; child block [B] under key ["b"]; in [B] the leaf [x]
    of category ["Var"] under key ["x"] and the leaf [y] of category
    ["Con"] under key ["y"], deactivated. *)
Definition scenario_x : entity := Leaf 3 (Category "Var") None.
Definition scenario_y : entity := Leaf 4 (Category "Con") (Some false).
Definition scenario_B : entity :=
  Blk 2 Dynamic true [(KeyStr "x", scenario_x); (KeyStr "y", scenario_y)].
Definition scenario_M : entity :=
  Blk 1 Dynamic true [(KeyStr "b", scenario_B)].

(** ** Listings of a tree *)

(** The objects of the tree rooted at [e], each with the key under which
    it is stored ([k] for [e] itself): an object first, then what it
    stores, in storage order. *)
Fixpoint keyed_nodes (k : key) (e : entity) : list (key * entity) :=
  (k, e) :: match e with
            | Leaf _ _ _ => []
            | Blk _ _ _ ch | Cont _ _ _ ch =>
                flat_map (λ kc, keyed_nodes kc.1 kc.2) ch
            end.

(** The same objects, each after what it stores. *)
Fixpoint keyed_nodes_post (k : key) (e : entity) : list (key * entity) :=
  match e with
  | Leaf _ _ _ => []
  | Blk _ _ _ ch | Cont _ _ _ ch =>
      flat_map (λ kc, keyed_nodes_post kc.1 kc.2) ch
  end ++ [(k, e)].

(** [o] is a component of the category asked for; every component when
    no category is asked for. *)
Definition component_of (ctype : ctype_arg) (o : entity) : bool :=
  _is_component o && (is_no_ctype ctype || ctype_is (ctype_of o) ctype).

End Tree.

Module Heap.

(** ** Blocks as mutable objects

    The store holds the dynamic [block] objects with their indices, the
    [_parent] back-reference of every object, and the records sent to the
    logger.  Objects are designated by their identity.  Attribute names
    are those of ordinary attributes: the four private slots of a block
    are the fields of [block_state] and [heap], and class attributes are
    not assigned to. *)

(** Values that an attribute can hold. *)
Inductive value :=
| VNone
| VBool (b : bool)
| VWeakref (target : nat)
| VPlain (n : Z)
| VEntity (e : nat).

#[global] Instance value_eq_dec : EqDecision value.
Proof. solve_decision. Defined.

(** [isinstance(v, (IComponent, IComponentContainer))], and likewise
    [isinstance(v, ICategorizedObject)]: [v] is a component or a
    container. *)
Definition is_categorized (v : value) : bool :=
  match v with VEntity _ => true | _ => false end.

(** A record of [logger.warning] about the attribute [name]. *)
Inductive log_record := Warning (name : string).

(** The state of a [block]: [__order] (an [OrderedDict]), [__byctype]
    (a [defaultdict] of plain dicts), [__active], and the entries of
    [__dict__] that are attributes. *)
Record block_state := mk_block {
  order : list (string * nat);
  byctype : gmap ctype (gmap string nat);
  active : bool;
  attrs : gmap string value
}.

Record heap := mk_heap {
  blocks : gmap nat block_state;
  parents : gmap nat nat;
  log : list log_record
}.

(** [block.__init__] *)
Definition fresh_block : block_state :=
  {| order := []; byctype := ∅; active := true; attrs := ∅ |}.

(** [d[k] = v] on an [OrderedDict]: a bound key keeps its place. *)
Fixpoint od_set (d : list (string * nat)) (k : string) (v : nat)
  : list (string * nat) :=
  match d with
  | [] => [(k, v)]
  | (k', v') :: d =>
      if decide (k' = k) then (k, v) :: d else (k', v') :: od_set d k v
  end.

(** [del d[k]] on an [OrderedDict]; [None] stands for [KeyError]. *)
Fixpoint od_del (d : list (string * nat)) (k : string)
  : option (list (string * nat)) :=
  match d with
  | [] => None
  | (k', v') :: d =>
      if decide (k' = k) then Some d else cons (k', v') <$> od_del d k
  end.

Definition add_log (r : log_record) (h : heap) : heap :=
  {| blocks := blocks h; parents := parents h; log := log h ++ [r] |}.

Section block_methods.

(** The category of each object, fixed by its class. *)
Variable ctype_of : nat → ctype.

(** [block.__delattr__] *)
Definition delattr (self : nat) (name : string) (h : heap)
  : outcome () * heap :=
  match blocks h !! self with
  | None => (Raise AttributeError, h)
  | Some st =>
      (* component = getattr(self, name) *)
      match attrs st !! name with
      | None => (Raise AttributeError, h)
      | Some (VEntity e) =>
          (* del self.__order[name] *)
          match od_del (order st) name with
          | None => (Raise KeyError, h)
          | Some order' =>
              (* del self.__byctype[component.ctype][name] *)
              let bucket := default ∅ (byctype st !! ctype_of e) in
              match bucket !! name with
              | None =>
                  (Raise KeyError,
                   {| blocks :=
                        <[self := {| order := order';
                                     byctype := <[ctype_of e := bucket]>
                                                  (byctype st);
                                     active := active st;
                                     attrs := attrs st |}]> (blocks h);
                      parents := parents h;
                      log := log h |})
              | Some _ =>
                  let bucket' := delete name bucket in
                  let byctype' :=
                    if bool_decide (size bucket' = 0)
                    then delete (ctype_of e) (byctype st)
                    else <[ctype_of e := bucket']> (byctype st) in
                  (Ok (),
                   {| blocks :=
                        <[self := {| order := order';
                                     byctype := byctype';
                                     active := active st;
                                     attrs := delete name (attrs st) |}]>
                          (blocks h);
                      (* component._parent = None *)
                      parents := delete e (parents h);
                      log := log h |})
              end
          end
      | Some _ =>
          (Ok (),
           {| blocks :=
                <[self := {| order := order st;
                             byctype := byctype st;
                             active := active st;
                             attrs := delete name (attrs st) |}]> (blocks h);
              parents := parents h;
              log := log h |})
      end
  end.

(** [super(block, self).__setattr__(name, component)] *)
Definition object_setattr (self : nat) (name : string) (component : value)
    (h : heap) : heap :=
  match blocks h !! self with
  | None => h
  | Some st =>
      {| blocks :=
           <[self := {| order := order st;
                        byctype := byctype st;
                        active := active st;
                        attrs := <[name := component]> (attrs st) |}]>
             (blocks h);
         parents := parents h;
         log := log h |}
  end.

(** The registration of a parentless component in [block.__setattr__],
    after a previous holder of the name has been deleted. *)
Definition register (self : nat) (name : string) (e : nat) (h : heap) : heap :=
  match blocks h !! self with
  | None => h
  | Some st =>
      let bucket := default ∅ (byctype st !! ctype_of e) in
      {| blocks :=
           <[self := {| order := od_set (order st) name e;
                        byctype := <[ctype_of e := <[name := e]> bucket]>
                                     (byctype st);
                        active := active st;
                        attrs := attrs st |}]> (blocks h);
         (* component._parent = weakref.ref(self) *)
         parents := <[e := self]> (parents h);
         log := log h |}
  end.

(** [block.__setattr__] *)
Definition setattr (self : nat) (name : string) (component : value) (h : heap)
  : outcome () * heap :=
  match blocks h !! self with
  | None => (Raise AttributeError, h)
  | Some st =>
      match component with
      | VEntity e =>
          match parents h !! e with
          | None =>
              let '(r, h1) :=
                if bool_decide (is_Some (attrs st !! name))
                then delattr self name (add_log (Warning name) h)
                else (Ok (), h) in
              match r with
              | Raise x => (Raise x, h1)
              | Ok _ =>
                  (Ok (), object_setattr self name component
                            (register self name e h1))
              end
          | Some _ =>
              if bool_decide (attrs st !! name = Some component)
              then (Ok (), object_setattr self name component h)
              else (Raise ValueError, h)
          end
      | _ => (Ok (), object_setattr self name component h)
      end
  end.

(** [block.children(ctype=ctype, return_key=True)], as the list of what
    the returned iterator yields; a plain dict yields in no set order. *)
Definition children (self : nat) (ctype : ctype_arg) (h : heap)
  : list (string * nat) :=
  match blocks h !! self with
  | None => []
  | Some st =>
      match ctype with
      | None => order st
      | Some c => map_to_list (default ∅ (byctype st !! c))
      end
  end.

(** [attach(name, e)] and [detach(name)] on the block [b]. *)
Inductive op :=
| Attach (b : nat) (name : string) (e : nat)
| Detach (b : nat) (name : string).

Definition run_op (o : op) (h : heap) : heap :=
  match o with
  | Attach b name e => (setattr b name (VEntity e) h).2
  | Detach b name => (delattr b name h).2
  end.

(** Every block of the store is as [__init__] leaves it. *)
Definition all_fresh (h : heap) : Prop :=
  ∀ b st, blocks h !! b = Some st → st = fresh_block.

(** The states reached from fresh blocks by attaching and detaching. *)
Inductive reachable : heap → Prop :=
| reachable_fresh h : all_fresh h → reachable h
| reachable_step o h : reachable h → reachable (run_op o h).


(** What attaching and detaching maintain on the block [b]. *)
Definition block_inv (h : heap) (b : nat) (st : block_state) : Prop :=
  NoDup (order st).*1
  ∧ NoDup (order st).*2
  ∧ (∀ n e, (n, e) ∈ order st →
       parents h !! e = Some b
       ∧ attrs st !! n = Some (VEntity e)
       ∧ ∃ bucket, byctype st !! ctype_of e = Some bucket
                   ∧ bucket !! n = Some e)
  ∧ (∀ n e, attrs st !! n = Some (VEntity e) → (n, e) ∈ order st)
  ∧ (∀ c bucket n e,
       byctype st !! c = Some bucket → bucket !! n = Some e →
       ctype_of e = c ∧ (n, e) ∈ order st)
  ∧ (∀ c bucket, byctype st !! c = Some bucket → bucket ≠ ∅).

Definition heap_inv (h : heap) : Prop :=
  ∀ b st, blocks h !! b = Some st → block_inv h b st.

End block_methods.

(** ** [StaticBlock]: the attributes and [children] *)





Section static_children.

Variable ctype_of : nat → ctype.



End static_children.


(** ** An example store

    Two blocks, [1] and [2]; the objects [10], of category ["Var"], and
    [11], of category ["Con"]; and the state after [10] has been attached
    to block [1] under the name ["x"]. *)
Definition example_ctype (e : nat) : ctype :=
  match e with
  | 10 => Category "Var"
  | 11 => Category "Con"
  | _ => Block
  end.

Definition two_blocks : heap :=
  {| blocks := {[ 1 := fresh_block; 2 := fresh_block ]};
     parents := ∅;
     log := [] |}.

Definition example_heap : heap :=
  run_op example_ctype (Attach 1 "x" 10) two_blocks.

(** ** [block.child_key] *)

Section block_child_key.

Variable ctype_of : nat → ctype.

(** [block.child_key]: the first key of the category bucket of [child]
    whose value is [child]. *)
Definition child_key (self child : nat) (h : heap) : outcome string :=
  match blocks h !! self with
  | None => Raise AttributeError
  | Some st =>
      match byctype st !! ctype_of child with
      | Some bucket =>
          match list_find (λ kv, kv.2 = child) (map_to_list bucket) with
          | Some (_, (key, _)) => Ok key
          | None => Raise ValueError
          end
      | None => Raise ValueError
      end
  end.

End block_child_key.

(** ** [StaticBlock]: assignment, deletion and [child_key] *)






Section static_methods.

(** Whether a class of the hierarchy declares no [__slots__], so that the
    instances have a [__dict__]. *)
Variable has_dict : bool.

(** The identity of the block, for the back-reference. *)
Variable self : nat.





End static_methods.



End Heap.

Module TreeFacts.
Import Tree.

(** ** Basic facts *)

Lemma entity_nested_ind (P : entity → Prop) :
  (∀ i ct a, P (Leaf i ct a)) →
  (∀ i cls a ch, Forall (λ kc, P kc.2) ch → P (Blk i cls a ch)) →
  (∀ i ct a ch, Forall (λ kc, P kc.2) ch → P (Cont i ct a ch)) →
  ∀ e, P e.
Proof.
  intros HL HB HC.
  fix IH 1. intros [i ct a|i cls a ch|i ct a ch].
  - apply HL.
  - apply HB. induction ch as [|[k c] ch IHch]; constructor; [apply IH|apply IHch].
  - apply HC. induction ch as [|[k c] ch IHch]; constructor; [apply IH|apply IHch].
Qed.

Lemma elem_of_flat_map {A B} (f : A → list B) (l : list A) (y : B) :
  y ∈ flat_map f l ↔ ∃ x, x ∈ l ∧ y ∈ f x.
Proof.
  rewrite list_elem_of_In, in_flat_map.
  split; intros (x & ? & ?); exists x; by rewrite ?list_elem_of_In in *.
Qed.

Lemma flat_map_cons_app {A B} (f : A → list B) x l :
  flat_map f (x :: l) = f x ++ flat_map f l.
Proof. done. Qed.

Lemma flat_map_ext_elem {A B} (f g : A → list B) (l : list A) :
  (∀ x, x ∈ l → f x = g x) → flat_map f l = flat_map g l.
Proof.
  induction l as [|x l IH]; intros Hfg; [done|]. simpl.
  rewrite Hfg by left. rewrite IH; [done|]. intros y ?. apply Hfg. by right.
Qed.

Lemma flat_map_Permutation_elem {A B} (f g : A → list B) (l : list A) :
  (∀ x, x ∈ l → f x ≡ₚ g x) → flat_map f l ≡ₚ flat_map g l.
Proof.
  induction l as [|x l IH]; intros Hfg; [done|]. simpl.
  rewrite Hfg by left. rewrite IH; [done|]. intros y ?. apply Hfg. by right.
Qed.

Lemma nodes_unfold e : nodes e = e :: descendants e.
Proof. by destruct e. Qed.

Lemma elem_of_nodes_self e : e ∈ nodes e.
Proof. rewrite nodes_unfold. by left. Qed.

Lemma elem_of_descendants d e :
  d ∈ descendants e ↔ ∃ kc, kc ∈ stored e ∧ d ∈ nodes kc.2.
Proof. apply elem_of_flat_map. Qed.

Lemma descendants_nodes d e : d ∈ descendants e → d ∈ nodes e.
Proof. rewrite nodes_unfold. by right. Qed.

Lemma stored_descendants k c e : (k, c) ∈ stored e → c ∈ descendants e.
Proof.
  intros. apply elem_of_descendants. exists (k, c). split; [done|].
  apply elem_of_nodes_self.
Qed.

Lemma height_stored k c e : (k, c) ∈ stored e → height c < height e.
Proof.
  destruct e as [|i cls a ch|i ct a ch]; simpl; [by inversion 1| |];
    (induction ch as [|[k' c'] ch IH]; [by inversion 1|];
     intros [[= <- <-]|Hin]%elem_of_cons; simpl in *; [lia|];
     specialize (IH Hin); lia).
Qed.

Lemma nodes_trans d c e : d ∈ nodes c → c ∈ nodes e → d ∈ nodes e.
Proof.
  intros Hd. induction e as [i ct a|i cls a ch IH|i ct a ch IH] using entity_nested_ind;
    rewrite nodes_unfold; intros [->|Hc]%elem_of_cons; try done.
  - by apply elem_of_nil in Hc.
  - right. apply elem_of_descendants in Hc as (kc & Hkc & Hc).
    apply elem_of_descendants. exists kc. split; [done|].
    rewrite Forall_forall in IH. by apply (IH kc).
  - right. apply elem_of_descendants in Hc as (kc & Hkc & Hc).
    apply elem_of_descendants. exists kc. split; [done|].
    rewrite Forall_forall in IH. by apply (IH kc).
Qed.

Lemma descendants_trans d c e :
  d ∈ descendants c → c ∈ nodes e → d ∈ descendants e.
Proof.
  intros Hd Hc. rewrite nodes_unfold in Hc.
  apply elem_of_cons in Hc as [->|Hc]; [done|].
  apply elem_of_descendants in Hc as (kc & Hkc & Hc).
  apply elem_of_descendants. exists kc. split; [done|].
  eapply nodes_trans; [|done]. by apply descendants_nodes.
Qed.

Lemma descendants_trans_nodes d c e :
  d ∈ nodes c → c ∈ descendants e → d ∈ descendants e.
Proof.
  intros Hd (kc & Hkc & Hc)%elem_of_descendants.
  apply elem_of_descendants. exists kc. split; [done|].
  by eapply nodes_trans.
Qed.

Lemma height_nodes d e : d ∈ nodes e → height d ≤ height e.
Proof.
  induction e as [i ct a|i cls a ch IH|i ct a ch IH] using entity_nested_ind;
    rewrite nodes_unfold; intros [->|Hd]%elem_of_cons; try done.
  - by apply elem_of_nil in Hd.
  - apply elem_of_descendants in Hd as ([k c] & Hkc & Hd).
    rewrite Forall_forall in IH. specialize (IH _ Hkc Hd).
    apply (height_stored k c (Blk i cls a ch)) in Hkc. simpl in *. lia.
  - apply elem_of_descendants in Hd as ([k c] & Hkc & Hd).
    rewrite Forall_forall in IH. specialize (IH _ Hkc Hd).
    apply (height_stored k c (Cont i ct a ch)) in Hkc. simpl in *. lia.
Qed.

Lemma height_descendants d e : d ∈ descendants e → height d < height e.
Proof.
  intros ([k c] & Hkc & Hd)%elem_of_descendants.
  apply height_nodes in Hd. apply height_stored in Hkc. simpl in *. lia.
Qed.

Lemma not_descendant_self e : e ∉ descendants e.
Proof. intros H%height_descendants. lia. Qed.

(** *** What the container methods yield *)

Lemma container_preorder_nodes active k c ko :
  ko ∈ container_preorder active k c → ko.2 ∈ nodes c.
Proof.
  revert k. induction c as [i ct a|i cls a ch IH|i ct a ch IH]
    using entity_nested_ind; intros k; simpl; try by inversion 1.
  case_match; [by inversion 1|].
  intros [->|Hin]%elem_of_cons; [by left|]. right.
  apply elem_of_flat_map in Hin as (kc & Hkc & Hin).
  apply elem_of_flat_map. exists kc. split; [done|].
  rewrite Forall_forall in IH.
  repeat case_match; try by apply elem_of_nil in Hin.
  - apply list_elem_of_singleton in Hin as ->. apply elem_of_nodes_self.
  - by apply (IH kc Hkc kc.1).
Qed.

Lemma container_postorder_nodes active k c ko :
  ko ∈ container_postorder active k c → ko.2 ∈ nodes c.
Proof.
  revert k. induction c as [i ct a|i cls a ch IH|i ct a ch IH]
    using entity_nested_ind; intros k; simpl; try by inversion 1.
  case_match; [by inversion 1|].
  intros [Hin| ->%list_elem_of_singleton]%elem_of_app; [|by left]. right.
  apply elem_of_flat_map in Hin as (kc & Hkc & Hin).
  apply elem_of_flat_map. exists kc. split; [done|].
  rewrite Forall_forall in IH.
  repeat case_match; try by apply elem_of_nil in Hin.
  - apply list_elem_of_singleton in Hin as ->. apply elem_of_nodes_self.
  - by apply (IH kc Hkc kc.1).
Qed.

Lemma container_components_nodes c o :
  o ∈ container_components c → o ∈ descendants c.
Proof.
  induction c as [i ct a|i cls a ch IH|i ct a ch IH]
    using entity_nested_ind; simpl; try by inversion 1.
  intros (kc & Hkc & Hin)%elem_of_flat_map.
  apply elem_of_descendants. exists kc. split; [done|].
  rewrite Forall_forall in IH.
  case_match.
  - apply list_elem_of_singleton in Hin as ->. apply elem_of_nodes_self.
  - apply descendants_nodes. by apply IH.
Qed.

(** *** Enough fuel *)

Lemma children_stored self ctype kc :
  kc ∈ children self ctype → kc ∈ stored self.
Proof.
  destruct ctype; simpl; [|done]. by intros [? ?]%list_elem_of_filter.
Qed.

Lemma visit_child_ext bt1 bt2 ct ctype active ipb kc :
  (∀ ko, ko ∈ ct kc.1 kc.2 → height ko.2 ≤ height kc.2) →
  (∀ k o, height o ≤ height kc.2 → bt1 k o = bt2 k o) →
  visit_child bt1 ct ctype active ipb kc
  = visit_child bt2 ct ctype active ipb kc.
Proof.
  destruct kc as [key child]. simpl. intros Hct Hbt.
  repeat case_match; try done; try by apply Hbt.
  all: apply flat_map_ext_elem; intros [obj_key obj] Hobj;
    apply Hct in Hobj; repeat case_match; try done; by apply Hbt.
Qed.


Lemma postorder_fuel_irrel n m ctype active ipb k self :
  height self < n → height self < m →
  postorder_fuel n ctype active ipb k self
  = postorder_fuel m ctype active ipb k self.
Proof.
  revert m k self. induction n as [|n IH]; intros [|m] k self Hn Hm; try lia.
  simpl. case_match; [done|]. f_equal.
  apply flat_map_ext_elem. intros [key child] Hin.
  pose proof (height_stored _ _ _ Hin).
  apply visit_child_ext; simpl.
  - intros ko Hko. by apply container_postorder_nodes, height_nodes in Hko.
  - intros k' o Ho. apply IH; lia.
Qed.

Lemma components_fuel_irrel n m ctype active descend self :
  height self < n → height self < m →
  components_fuel n ctype active descend self
  = components_fuel m ctype active descend self.
Proof.
  revert m self. induction n as [|n IH]; intros [|m] self Hn Hm; try lia.
  simpl. case_match; [done|]. f_equal.
  destruct descend; [|done].
  apply flat_map_ext_elem. intros [key child] Hin.
  apply (children_stored self (Some Block)) in Hin.
  pose proof (height_stored _ _ _ Hin).
  repeat case_match; try done; [apply IH; lia|].
  apply flat_map_ext_elem. intros obj Hobj.
  apply container_components_nodes, height_descendants in Hobj.
  case_match; [|done]. apply IH; lia.
Qed.


Lemma postorder_fuel_enough n ctype active ipb k self :
  height self < n →
  postorder_fuel n ctype active ipb k self = postorder ctype active ipb k self.
Proof. intros. apply postorder_fuel_irrel; lia. Qed.

Lemma components_fuel_enough n ctype active descend self :
  height self < n →
  components_fuel n ctype active descend self
  = components_body ctype active descend self.
Proof. intros. apply components_fuel_irrel; lia. Qed.

(** *** The traversals as recursive equations *)


Lemma postorder_unfold ctype active ipb k self :
  postorder ctype active ipb k self =
  if truthy active && negb (getattr_active self) then []
  else flat_map (visit_child (postorder ctype active ipb)
                             (container_postorder active) ctype active ipb)
                (stored self)
       ++ yield_self ctype ipb k self.
Proof.
  unfold postorder at 1. simpl. case_match; [done|]. f_equal.
  apply flat_map_ext_elem. intros [key child] Hin.
  pose proof (height_stored _ _ _ Hin).
  apply visit_child_ext; simpl.
  - intros ko Hko. by apply container_postorder_nodes, height_nodes in Hko.
  - intros k' o Ho. apply postorder_fuel_enough. lia.
Qed.

(** *** Preorder against postorder: the same objects *)

Lemma flat_map_Permutation_both {A B} (f g : A → list B) (l1 l2 : list A) :
  l1 ≡ₚ l2 → (∀ x, f x ≡ₚ g x) → flat_map f l1 ≡ₚ flat_map g l2.
Proof.
  intros Hl Hfg. etrans; [by apply Permutation_flat_map|].
  apply flat_map_Permutation_elem. auto.
Qed.

Lemma container_preorder_postorder active k c :
  container_preorder active k c ≡ₚ container_postorder active k c.
Proof.
  revert k. induction c as [i ct a|i cls a ch IH|i ct a ch IH]
    using entity_nested_ind; intros k; simpl; try done.
  case_match; [done|].
  rewrite Permutation_cons_append. apply Permutation_app_tail.
  apply flat_map_Permutation_elem. intros kc Hkc.
  rewrite Forall_forall in IH. repeat case_match; try done. by apply IH.
Qed.

Lemma visit_child_Permutation bt1 bt2 ct1 ct2 ctype active ipb kc :
  (∀ k o, bt1 k o ≡ₚ bt2 k o) →
  (∀ k o, ct1 k o ≡ₚ ct2 k o) →
  visit_child bt1 ct1 ctype active ipb kc
  ≡ₚ visit_child bt2 ct2 ctype active ipb kc.
Proof.
  destruct kc as [key child]. simpl. intros Hbt Hct.
  repeat case_match; try done.
  all: apply flat_map_Permutation_both; [done|];
    intros [obj_key obj]; by repeat case_match.
Qed.

Lemma preorder_postorder_fuel n ctype active ipb k self :
  preorder_fuel n ctype active ipb k self
  ≡ₚ postorder_fuel n ctype active ipb k self.
Proof.
  revert k self. induction n as [|n IH]; intros k self; simpl; [done|].
  case_match; [done|].
  rewrite (comm (++)). apply Permutation_app_tail.
  apply flat_map_Permutation_elem. intros kc _.
  apply visit_child_Permutation; [done|].
  apply container_preorder_postorder.
Qed.

Lemma preorder_postorder_Permutation ctype active ipb k self :
  preorder ctype active ipb k self ≡ₚ postorder ctype active ipb k self.
Proof. apply preorder_postorder_fuel. Qed.

(** *** What the block traversals yield *)

Lemma visit_child_nodes bt ct ctype active ipb kc x :
  (∀ k o y, y ∈ bt k o → y.2 ∈ nodes o) →
  (∀ k o y, y ∈ ct k o → y.2 ∈ nodes o) →
  x ∈ visit_child bt ct ctype active ipb kc → x.2 ∈ nodes kc.2.
Proof.
  destruct kc as [key child]. simpl. intros Hbt Hct.
  repeat case_match; try (by intros ?%elem_of_nil); eauto.
  - intros ->%list_elem_of_singleton. apply elem_of_nodes_self.
  - intros ([obj_key obj] & Hobj & Hx)%elem_of_flat_map.
    apply Hct in Hobj. eapply nodes_trans; [|done].
    repeat case_match; try (by apply elem_of_nil in Hx); eauto.
    apply list_elem_of_singleton in Hx as ->. apply elem_of_nodes_self.
  - intros ([obj_key obj] & Hobj & Hx)%elem_of_flat_map.
    apply Hct in Hobj. eapply nodes_trans; [|done].
    repeat case_match; try (by apply elem_of_nil in Hx); eauto.
Qed.

Lemma yield_self_cases ctype ipb k self :
  yield_self ctype ipb k self = [(k, self)] ∨ yield_self ctype ipb k self = [].
Proof. unfold yield_self. case_match; auto. Qed.

Lemma preorder_fuel_nodes n ctype active ipb k self x :
  x ∈ preorder_fuel n ctype active ipb k self → x.2 ∈ nodes self.
Proof.
  revert k self x. induction n as [|n IH]; intros k self x; simpl;
    [by inversion 1|].
  case_match; [by inversion 1|]. rewrite nodes_unfold.
  intros [Hx|Hx]%elem_of_app.
  - destruct (yield_self_cases ctype ipb k self) as [E|E]; rewrite E in Hx.
    + apply list_elem_of_singleton in Hx as ->. by left.
    + by apply elem_of_nil in Hx.
  - right. apply elem_of_flat_map in Hx as (kc & Hkc & Hx).
    apply elem_of_descendants. exists kc. split; [done|].
    eapply visit_child_nodes; [..|done]; [apply IH|].
    intros ???. apply container_preorder_nodes.
Qed.

Lemma postorder_fuel_nodes n ctype active ipb k self x :
  x ∈ postorder_fuel n ctype active ipb k self → x.2 ∈ nodes self.
Proof.
  rewrite <-preorder_postorder_fuel. apply preorder_fuel_nodes.
Qed.


Lemma postorder_nodes ctype active ipb k self x :
  x ∈ postorder ctype active ipb k self → x.2 ∈ nodes self.
Proof. apply postorder_fuel_nodes. Qed.

(** *** Unique identities *)

Lemma NoDup_fmap_flat_map_elem {A B C} (g : B → C) (f : A → list B) l x :
  NoDup (g <$> flat_map f l) → x ∈ l → NoDup (g <$> f x).
Proof.
  induction l as [|y l IH]; simpl; [by inversion 2|].
  rewrite fmap_app. intros (? & ? & ?)%NoDup_app [->|?]%elem_of_cons; auto.
Qed.


Lemma unique_ids_stored e kc :
  unique_ids e → kc ∈ stored e → unique_ids kc.2.
Proof.
  unfold unique_ids, oids. rewrite nodes_unfold. simpl.
  intros [_ Hnd]%NoDup_cons Hkc.
  by apply (NoDup_fmap_flat_map_elem oid (λ kc, nodes kc.2) (stored e)).
Qed.

Lemma unique_ids_nodes e c : unique_ids e → c ∈ nodes e → unique_ids c.
Proof.
  induction e as [i ct a|i cls a ch IH|i ct a ch IH]
    using entity_nested_ind; intros He; rewrite nodes_unfold;
    intros [->|Hc]%elem_of_cons; try done.
  - by apply elem_of_nil in Hc.
  - apply elem_of_descendants in Hc as (kc & Hkc & Hc).
    rewrite Forall_forall in IH. apply (IH kc); [done| |done].
    by apply (unique_ids_stored _ _ He).
  - apply elem_of_descendants in Hc as (kc & Hkc & Hc).
    rewrite Forall_forall in IH. apply (IH kc); [done| |done].
    by apply (unique_ids_stored _ _ He).
Qed.


(** *** Postorder: a container after what is below it *)




Lemma flat_map_flat_map {A B C} (f : A → list B) (g : B → list C) l :
  flat_map g (flat_map f l) = flat_map (λ x, flat_map g (f x)) l.
Proof.
  induction l as [|x l IH]; simpl; [done|]. by rewrite flat_map_app, IH.
Qed.


(** The postorder traversals are built from sequences yielded for
    disjoint parts of the tree.  A property [Φ] of sequences that
    survives such concatenations holds of every postorder traversal. *)
Section postorder_property.

Variable Φ : list (key * entity) → Prop.
Hypothesis Φ_nil : Φ [].
Hypothesis Φ_singleton : ∀ ko, Φ [ko].
Hypothesis Φ_app : ∀ out1 out2,
  Φ out1 → Φ out2 →
  (∀ x y, x ∈ out1 → y ∈ out2 → oid x.2 ≠ oid y.2) →
  (∀ x y, x ∈ out1 → y ∈ out2 → y.2 ∉ descendants x.2) →
  Φ (out1 ++ out2).







End postorder_property.






(** ** Filtering rules of [preorder_traversal] *)






(** ** Preorder against postorder *)



(** ** The [active] argument *)





(** ** Names *)

(** *** Parents are yielded first *)









(** *** The parent of a stored object *)




Lemma parent_below_unfold root i :
  parent_below root i =
  if bool_decide (i ∈ (oid ∘ snd) <$> stored root) then Some root
  else foldr (λ kc found,
                match parent_below kc.2 i with
                | Some p => Some p
                | None => found
                end) None (stored root).
Proof.
  by destruct root.
Qed.



(** *** The loop of [generate_names] *)




(** ** Categories *)

Lemma components_unfold ctype active descend self :
  components_body ctype active descend self =
  if truthy active && negb (getattr_active self) then []
  else
    flat_map (λ '(_, child),
      if is_None active || getattr_active child then
        if _is_component child then [child]
        else
          if negb (is_None active) && is_active_container child then
            filter (λ component, getattr_active component = true)
                   (container_components child)
          else container_components child
      else []) (children self ctype)
    ++
    (if descend then
       flat_map (λ '(_, child),
         if is_None active || getattr_active child then
           if _is_component child then
             components_body ctype active descend child
           else
             flat_map (λ _comp,
               if is_None active || getattr_active _comp then
                 components_body ctype active descend _comp
               else []) (container_components child)
         else []) (children self (Some Block))
     else []).
Proof.
  unfold components_body at 1. simpl. case_match; [done|]. f_equal.
  destruct descend; [|done].
  apply flat_map_ext_elem. intros [key child] Hin.
  apply (children_stored self (Some Block)) in Hin.
  pose proof (height_stored _ _ _ Hin).
  repeat case_match; try done; [apply components_fuel_enough; lia|].
  apply flat_map_ext_elem. intros obj Hobj.
  apply container_components_nodes, height_descendants in Hobj.
  case_match; [|done]. apply components_fuel_enough; lia.
Qed.

Lemma within_unfold c :
  within c = c :: if _is_component c then []
                  else flat_map (λ kc, within kc.2) (stored c).
Proof. by destruct c. Qed.

Lemma within_self c : c ∈ within c.
Proof. rewrite within_unfold. by left. Qed.

Lemma within_nodes c d : d ∈ within c → d ∈ nodes c.
Proof.
  induction c as [i ct a|i cls a ch IH|i ct a ch IH]
    using entity_nested_ind; simpl.
  - intros ->%list_elem_of_singleton. by left.
  - intros ->%list_elem_of_singleton. by left.
  - intros [->|Hd]%elem_of_cons; [by left|]. right.
    apply elem_of_flat_map in Hd as (kc & Hkc & Hd).
    apply elem_of_flat_map. exists kc. split; [done|].
    rewrite Forall_forall in IH. by apply IH.
Qed.

Lemma container_components_within c o :
  o ∈ container_components c
  ↔ _is_component c = false ∧ o ∈ within c ∧ _is_component o = true.
Proof.
  induction c as [i ct a|i cls a ch IH|i ct a ch IH]
    using entity_nested_ind; simpl.
  - split; [by intros ?%elem_of_nil|by intros []].
  - split; [by intros ?%elem_of_nil|by intros []].
  - rewrite Forall_forall in IH. rewrite elem_of_flat_map. split.
    + intros (kc & Hkc & Ho). split; [done|].
      destruct (_is_component kc.2) eqn:Hcomp.
      * apply list_elem_of_singleton in Ho as ->. split; [|done].
        right. apply elem_of_flat_map. exists kc. split; [done|].
        apply within_self.
      * apply IH in Ho as (_ & Ho & ?); [|done]. split; [|done].
        right. apply elem_of_flat_map. by exists kc.
    + intros (_ & [->|Ho]%elem_of_cons & Hcomp); [done|].
      apply elem_of_flat_map in Ho as (kc & Hkc & Ho). exists kc.
      split; [done|]. destruct (_is_component kc.2) eqn:Hkcomp.
      * rewrite within_unfold, Hkcomp in Ho.
        by apply list_elem_of_singleton in Ho as ->; left.
      * by apply IH.
Qed.

Lemma well_typed_nodes root c : well_typed root → c ∈ nodes root → well_typed c.
Proof. intros Hwt Hc d Hd. apply Hwt. by eapply nodes_trans. Qed.

Lemma within_ctype c d : well_typed c → d ∈ within c → ctype_of d = ctype_of c.
Proof.
  induction c as [i ct a|i cls a ch IH|i ct a ch IH]
    using entity_nested_ind; simpl; intros Hwt.
  - by intros ->%list_elem_of_singleton.
  - by intros ->%list_elem_of_singleton.
  - intros [->|Hd]%elem_of_cons; [done|].
    apply elem_of_flat_map in Hd as (kc & Hkc & Hd).
    rewrite Forall_forall in IH. rewrite (IH kc Hkc); [|  |done].
    + by apply (Hwt (Cont i ct a ch) (elem_of_nodes_self _)).
    + apply (well_typed_nodes (Cont i ct a ch)); [done|].
      apply descendants_nodes. by apply (stored_descendants kc.1); destruct kc.
Qed.


(** *** The blocks that [blocks] reaches *)

Lemma components_None_unfold ctype descend self :
  components_body ctype None descend self =
  flat_map (λ kc, if _is_component kc.2 then [kc.2]
                  else container_components kc.2) (children self ctype)
  ++ (if descend then
        flat_map (λ kc,
          if _is_component kc.2
          then components_body ctype None descend kc.2
          else flat_map (components_body ctype None descend)
                        (container_components kc.2))
          (children self (Some Block))
      else []).
Proof.
  rewrite components_unfold. simpl. f_equal.
  - apply flat_map_ext_elem. by intros [k c] _.
  - destruct descend; [|done]. apply flat_map_ext_elem. by intros [k c] _.
Qed.

Lemma components_direct self :
  components_body None None false self = direct_components self.
Proof. rewrite components_None_unfold. simpl. by rewrite app_nil_r. Qed.



Lemma well_typed_component_block root c :
  well_typed root → c ∈ nodes root →
  _is_component c = true → ctype_of c = Block → is_block c = true.
Proof.
  intros Hwt Hc Hcomp Hct. unfold is_block. rewrite Hcomp. simpl.
  destruct (_is_container c) eqn:E; [done|].
  by destruct (Hwt c Hc) as [Hleaf _]; apply Hleaf in E.
Qed.

Lemma components_Block_blocks self x :
  well_typed self →
  x ∈ components_body (Some Block) None true self →
  is_block x = true ∧ x ∈ descendants self.
Proof.
  remember (height self) as n eqn:Hn. revert self x Hn.
  induction (lt_wf n) as [n _ IH]. intros self x -> Hwt.
  rewrite components_None_unfold.
  assert (Hfirst : ∀ kc o, kc ∈ children self (Some Block) →
    o ∈ (if _is_component kc.2 then [kc.2] else container_components kc.2) →
    o ∈ within kc.2 ∧ is_block o = true ∧ o ∈ descendants self
    ∧ kc ∈ stored self).
  { intros kc o [Hct Hkc]%list_elem_of_filter Ho. simpl in Hct.
    assert (Hkcn : kc.2 ∈ descendants self)
      by (by apply (stored_descendants kc.1); destruct kc).
    assert (Hw : o ∈ within kc.2 ∧ _is_component o = true).
    { destruct (_is_component kc.2) eqn:Hk.
      - apply list_elem_of_singleton in Ho as ->.
        split; [apply within_self|done].
      - by apply container_components_within in Ho as (_ & ? & ?). }
    destruct Hw as [Hw Hcomp].
    assert (Hon : o ∈ descendants self).
    { eapply descendants_trans_nodes; [|done]. by apply within_nodes. }
    split_and!; try done.
    apply (well_typed_component_block self); try done.
    - by apply descendants_nodes.
    - rewrite <-Hct. apply within_ctype; [|done].
      apply (well_typed_nodes self); [done|]. by apply descendants_nodes. }
  intros [Hx|Hx]%elem_of_app.
  - apply elem_of_flat_map in Hx as (kc & Hkc & Hx).
    by destruct (Hfirst kc x Hkc Hx) as (_ & ? & ? & _).
  - apply elem_of_flat_map in Hx as (kc & Hkc & Hx).
    assert (∃ o, o ∈ (if _is_component kc.2 then [kc.2]
                      else container_components kc.2)
                 ∧ x ∈ components_body (Some Block) None true o)
      as (o & Ho & Hxo).
    { destruct (_is_component kc.2).
      - exists kc.2. split; [by left|done].
      - apply elem_of_flat_map in Hx as (o & ? & ?). by exists o. }
    destruct (Hfirst kc o Hkc Ho) as (_ & _ & Hon & _).
    destruct (IH (height o) (height_descendants _ _ Hon) o x eq_refl)
      as [Hblk Hxd]; [|done|].
    + apply (well_typed_nodes self); [done|]. by apply descendants_nodes.
    + split; [done|]. eapply descendants_trans; [done|].
      by apply descendants_nodes.
Qed.

(** *** [collect_ctypes(active=None, descend_into=True)] *)

Lemma is_block_ctype b : is_block b = true → ctype_of b = Block.
Proof. by destruct b. Qed.

Lemma collect_ctypes_here_None blk :
  is_block blk = true → collect_ctypes_here None blk = Ok (categories_here blk).
Proof.
  destruct blk as [|i [] a ch|]; try done.
  intros _. unfold collect_ctypes_here. simpl.
  unfold StaticBlock_collect_ctypes_here. by rewrite components_direct.
Qed.

Lemma collect_ctypes_fold blks s :
  Forall (λ b, is_block b = true) blks →
  foldl (λ ctypes blk,
           match ctypes with
           | Raise e => Raise e
           | Ok s =>
               match collect_ctypes_here None blk with
               | Raise e => Raise e
               | Ok t => Ok (s ∪ t)
               end
           end) (Ok s) blks
  = Ok (s ∪ ⋃ (categories_here <$> blks)).
Proof.
  intros Hall. revert s. induction Hall as [|b blks Hb _ IH]; intros s; simpl.
  - by rewrite (right_id_L ∅ (∪)).
  - by rewrite (collect_ctypes_here_None b Hb), IH, (assoc_L (∪)).
Qed.

Lemma blocks_body_None self :
  blocks_body None true self
  = self :: components_body (Some Block) None true self.
Proof. done. Qed.

Lemma collect_ctypes_None_descend self :
  well_typed self → is_block self = true →
  collect_ctypes None true self
  = Ok (⋃ (categories_here <$> blocks_body None true self)).
Proof.
  intros Hwt Hblk. unfold collect_ctypes.
  change (negb (active_in_None_True None)) with false. cbv iota.
  change (negb true) with false. cbv iota.
  rewrite collect_ctypes_fold.
  - by rewrite (left_id_L ∅ (∪)).
  - rewrite blocks_body_None. constructor; [done|].
    apply Forall_forall. intros x Hx.
    by apply components_Block_blocks in Hx as [? _].
Qed.







(** *** [collect_ctypes(active=True, descend_into=False)] *)


Lemma elem_of_first_match (f : ctype → list entity) l c :
  c ∈ foldr (λ ct (ctypes : gset ctype),
               match f ct with
               | _ :: _ => {[ ct ]} ∪ ctypes
               | [] => ctypes
               end) ∅ l →
  c ∈ l ∧ ∃ o rest, f c = o :: rest.
Proof.
  induction l as [|c' l IH]; simpl; [by intros ?%elem_of_empty|].
  destruct (f c') as [|o rest] eqn:E.
  - intros [? ?]%IH. split; [by right|done].
  - intros [->%elem_of_singleton|[? ?]%IH]%elem_of_union.
    + split; [by left|]. by exists o, rest.
    + split; [by right|done].
Qed.






End TreeFacts.

Module HeapFacts.
Import Heap.

(** ** Ordered dictionaries *)

Lemma od_del_Some d k d' :
  od_del d k = Some d' → NoDup d.*1 →
  k ∈ d.*1 ∧ d' `sublist_of` d ∧ (∀ x, x ∈ d' ↔ x ∈ d ∧ x.1 ≠ k).
Proof.
  revert d'. induction d as [|[k' v'] d IH]; intros d'; simpl; [done|].
  intros Hdel [Hk' Hnd]%NoDup_cons. case_decide as Hk.
  - injection Hdel as <-. subst k'. split_and!.
    + by left.
    + by apply sublist_cons.
    + intros [k2 v2]. rewrite elem_of_cons. simpl. split.
      * intros Hx. split; [by right|]. intros ->. apply Hk'.
        apply list_elem_of_fmap. by exists (k, v2).
      * intros [[[= -> ->]|?] ?]; done.
  - destruct (od_del d k) as [d1|] eqn:E; [|done]. injection Hdel as <-.
    destruct (IH d1 eq_refl Hnd) as (Hin & Hsub & Hiff). split_and!.
    + by right.
    + by apply sublist_skip.
    + intros x. rewrite !elem_of_cons, Hiff. split.
      * intros [->|[? ?]]; [|by auto]. split; [by left|done].
      * intros [[->|?] ?]; auto.
Qed.

Lemma od_del_is_Some d k v : (k, v) ∈ d → is_Some (od_del d k).
Proof.
  induction d as [|[k' v'] d IH]; [by inversion 1|].
  intros Hin. simpl. case_decide; [done|].
  apply elem_of_cons in Hin as [[= -> ->]|Hin]; [done|].
  destruct (IH Hin) as [d' ->]. by eexists.
Qed.

Lemma od_set_fresh d k v : k ∉ d.*1 → od_set d k v = d ++ [(k, v)].
Proof.
  induction d as [|[k' v'] d IH]; simpl; [done|].
  intros Hk. apply not_elem_of_cons in Hk as [Hne Hk].
  case_decide; [done|]. by rewrite IH.
Qed.

(** ** Attaching an object that has a parent *)

Lemma object_setattr_id self name component h st :
  blocks h !! self = Some st → attrs st !! name = Some component →
  object_setattr self name component h = h.
Proof.
  intros Hst Hname. unfold object_setattr. rewrite Hst.
  rewrite (insert_id (attrs st)) by done.
  destruct h as [bs ps lg], st as [o bc ac at_]. simpl in *.
  by rewrite insert_id.
Qed.

(** C3. On a block, attaching an object whose parent reference is set
    raises the error of a duplicate parent ([ValueError]) and changes
    nothing, in the block or elsewhere in the store; unless the object is
    the very value of that attribute of that block, in which case the
    assignment succeeds and changes nothing either: nothing is logged and
    no index gets a second entry. *)
Theorem attach_with_parent
    (ctype_of : nat → ctype) (h : heap) (self : nat) (name : string)
    (e p : nat) (st : block_state) :
  blocks h !! self = Some st →
  parents h !! e = Some p →
  (attrs st !! name = Some (VEntity e) →
   setattr ctype_of self name (VEntity e) h = (Ok (), h))
  ∧ (attrs st !! name ≠ Some (VEntity e) →
     setattr ctype_of self name (VEntity e) h = (Raise ValueError, h)).
Proof.
  intros Hst Hp. unfold setattr. rewrite Hst, Hp. split; intros Hname.
  - rewrite bool_decide_eq_true_2 by done.
    by rewrite (object_setattr_id _ _ _ _ st).
  - by rewrite bool_decide_eq_false_2.
Qed.

Lemma attach_with_parent_witness :
  setattr example_ctype 1 "x" (VEntity 10) example_heap
    = (Ok (), example_heap)
  ∧ setattr example_ctype 2 "x" (VEntity 10) example_heap
    = (Raise ValueError, example_heap).
Proof.
  split.
  - eapply (attach_with_parent example_ctype example_heap 1 "x" 10 1);
      [vm_compute; reflexivity..].
  - eapply (attach_with_parent example_ctype example_heap 2 "x" 10 1);
      [vm_compute; reflexivity| vm_compute; reflexivity | discriminate].
Defined.

(** ** The invariant of attaching and detaching *)

Section invariant.

Variable ctype_of : nat → ctype.

Lemma block_inv_parents h h' b st :
  block_inv ctype_of h b st →
  (∀ n e, (n, e) ∈ order st → parents h' !! e = parents h !! e) →
  block_inv ctype_of h' b st.
Proof.
  intros (Hk & Hv & Hord & Hattr & Hbuck & Hne) Hsame.
  split_and!; try done.
  intros n e Hin. rewrite (Hsame n e Hin). by apply Hord.
Qed.

Lemma heap_inv_add_log r h :
  heap_inv ctype_of h → heap_inv ctype_of (add_log r h).
Proof. intros Hinv b st Hst. by apply (Hinv b st). Qed.

(** Detaching an object from a block in a state that satisfies the
    invariant: the name leaves both indices, and the object has no
    parent any more. *)
Lemma delattr_entity h self name e st :
  heap_inv ctype_of h → blocks h !! self = Some st →
  attrs st !! name = Some (VEntity e) →
  ∃ order' bucket,
    od_del (order st) name = Some order'
    ∧ byctype st !! ctype_of e = Some bucket
    ∧ bucket !! name = Some e
    ∧ delattr ctype_of self name h =
      (Ok (),
       {| blocks :=
            <[self := {| order := order';
                         byctype :=
                           if bool_decide (size (delete name bucket) = 0)
                           then delete (ctype_of e) (byctype st)
                           else <[ctype_of e := delete name bucket]>
                                  (byctype st);
                         active := active st;
                         attrs := delete name (attrs st) |}]> (blocks h);
          parents := delete e (parents h);
          log := log h |}).
Proof.
  intros Hinv Hst Hname.
  destruct (Hinv self st Hst) as (Hk & Hv & Hord & Hattr & Hbuck & Hne).
  pose proof (Hattr name e Hname) as Hin.
  destruct (od_del_is_Some _ _ _ Hin) as [order' Hdel].
  destruct (Hord name e Hin) as (_ & _ & bucket & Hb & Hbn).
  exists order', bucket. split_and!; try done.
  unfold delattr. rewrite Hst, Hname, Hdel, Hb. simpl. by rewrite Hbn.
Qed.

Lemma delattr_inv h self name :
  heap_inv ctype_of h → heap_inv ctype_of (delattr ctype_of self name h).2.
Proof.
  intros Hinv.
  destruct (blocks h !! self) as [st|] eqn:Hst;
    [|by unfold delattr; rewrite Hst].
  destruct (attrs st !! name) as [v|] eqn:Hname;
    [|by unfold delattr; rewrite Hst, Hname].
  destruct (Hinv self st Hst) as (Hk & Hv & Hord & Hattr & Hbuck & Hne).
  destruct (decide (is_categorized v = true)) as [Hcat|Hcat].
  - destruct v as [| | | |e]; try done.
    destruct (delattr_entity h self name e st Hinv Hst Hname)
      as (order' & bucket & Hdel & Hb & Hbn & ->). simpl.
    pose proof (Hattr name e Hname) as Hin.
    destruct (od_del_Some _ _ _ Hdel Hk) as (_ & Hsub & Hiff).
    assert (Hother : ∀ n e', (n, e') ∈ order' → n ≠ name ∧ e' ≠ e
                              ∧ (n, e') ∈ order st).
    { intros n e' [Hin' Hn]%Hiff. simpl in Hn. split_and!; try done.
      intros ->. apply Hn.
      apply list_elem_of_lookup in Hin as [i Hi], Hin' as [j Hj].
      assert (i = j) as ->; [|congruence].
      eapply NoDup_lookup; [exact Hv|..]; rewrite list_lookup_fmap.
      - by rewrite Hi.
      - by rewrite Hj. }
    intros b st' Hst'. simpl in Hst'.
    destruct (decide (b = self)) as [->|Hb'].
    + rewrite lookup_insert_eq in Hst'. injection Hst' as <-.
      split_and!; simpl.
      * eapply sublist_NoDup; [exact Hk|]. by apply fmap_sublist.
      * eapply sublist_NoDup; [exact Hv|]. by apply fmap_sublist.
      * intros n e' Hin'. destruct (Hother n e' Hin') as (Hn & He & Hold).
        destruct (Hord n e' Hold) as (Hp & Ha & bk & Hbk & Hbkn).
        split_and!.
        -- by rewrite lookup_delete_ne.
        -- by rewrite lookup_delete_ne.
        -- destruct (decide (ctype_of e' = ctype_of e)) as [Hc|Hc].
           ++ rewrite Hc in *. assert (bk = bucket) as -> by congruence.
              exists (delete name bucket).
              rewrite bool_decide_eq_false_2.
              ** rewrite lookup_insert_eq. split; [done|].
                 by rewrite lookup_delete_ne.
              ** rewrite map_size_empty_iff. intros Hempty.
                 assert (delete name bucket !! n = Some e') as Hl
                   by by rewrite lookup_delete_ne.
                 by rewrite Hempty, lookup_empty in Hl.
           ++ exists bk. split; [|done].
              case_bool_decide;
                [by rewrite lookup_delete_ne|by rewrite lookup_insert_ne].
      * intros n e' Ha. destruct (decide (n = name)) as [->|Hn].
        { by rewrite lookup_delete_eq in Ha. }
        rewrite lookup_delete_ne in Ha by done.
        apply Hiff. split; [by apply Hattr|done].
      * intros c bk n e' Hbk Hbkn.
        assert (∃ bk0, byctype st !! c = Some bk0 ∧ bk0 !! n = Some e'
                       ∧ (c = ctype_of e → n ≠ name)) as (bk0 & H0 & H0n & Hcn).
        { destruct (decide (c = ctype_of e)) as [->|Hc].
          - case_bool_decide; [by rewrite lookup_delete_eq in Hbk|].
            rewrite lookup_insert_eq in Hbk. injection Hbk as <-.
            exists bucket. split; [done|].
            destruct (decide (n = name)) as [->|].
            + by rewrite lookup_delete_eq in Hbkn.
            + by rewrite lookup_delete_ne in Hbkn.
          - exists bk. split_and!; [|done..].
            case_bool_decide;
              [by rewrite lookup_delete_ne in Hbk
              |by rewrite lookup_insert_ne in Hbk]. }
        destruct (Hbuck c bk0 n e' H0 H0n) as [Hc Hold].
        split; [done|]. apply Hiff. split; [done|]. simpl.
        intros ->. apply Hcn; [|done].
        rewrite <-Hc. f_equal.
        apply list_elem_of_lookup in Hin as [i Hi], Hold as [j Hj].
        assert (i = j) as ->; [|congruence].
        eapply NoDup_lookup; [exact Hk|..]; rewrite list_lookup_fmap.
        -- by rewrite Hi.
        -- by rewrite Hj.
      * intros c bk Hbk.
        destruct (decide (c = ctype_of e)) as [->|Hc].
        -- case_bool_decide as Hsz; [by rewrite lookup_delete_eq in Hbk|].
           rewrite lookup_insert_eq in Hbk. injection Hbk as <-.
           by rewrite <-map_size_empty_iff.
        -- apply (Hne c). case_bool_decide;
             [by rewrite lookup_delete_ne in Hbk
             |by rewrite lookup_insert_ne in Hbk].
    + rewrite lookup_insert_ne in Hst' by done.
      apply (block_inv_parents h); [by apply Hinv|].
      intros n e' Hin'. simpl. apply lookup_delete_ne.
      intros <-.
      destruct (Hinv b st' Hst') as (_ & _ & Hord' & _).
      destruct (Hord' n e Hin') as (Hp' & _).
      destruct (Hord name e Hin) as (Hp & _). congruence.
  - assert (delattr ctype_of self name h =
            (Ok (),
             {| blocks :=
                  <[self := {| order := order st; byctype := byctype st;
                               active := active st;
                               attrs := delete name (attrs st) |}]> (blocks h);
                parents := parents h; log := log h |})) as ->.
    { unfold delattr. rewrite Hst, Hname. by destruct v. }
    simpl. intros b st' Hst'. simpl in Hst'.
    destruct (decide (b = self)) as [->|Hb'].
    + rewrite lookup_insert_eq in Hst'. injection Hst' as <-.
      split_and!; simpl; try done.
      * intros n e' Hin'. destruct (Hord n e' Hin') as (Hp & Ha & Hbk).
        split_and!; try done. rewrite lookup_delete_ne; [done|].
        intros <-. rewrite Hname in Ha. by injection Ha as ->.
      * intros n e' Ha. apply Hattr.
        destruct (decide (n = name)) as [->|Hn].
        -- by rewrite lookup_delete_eq in Ha.
        -- by rewrite lookup_delete_ne in Ha.
    + rewrite lookup_insert_ne in Hst' by done.
      apply (block_inv_parents h); [by apply Hinv|done].
Qed.

Lemma delattr_bound h self name st :
  heap_inv ctype_of h → blocks h !! self = Some st →
  is_Some (attrs st !! name) →
  ∃ h1 st1,
    delattr ctype_of self name h = (Ok (), h1)
    ∧ blocks h1 !! self = Some st1
    ∧ attrs st1 = delete name (attrs st)
    ∧ log h1 = log h
    ∧ (∀ e, parents h !! e = None → parents h1 !! e = None)
    ∧ (∀ e, attrs st !! name = Some (VEntity e) → parents h1 !! e = None).
Proof.
  intros Hinv Hst [v Hname].
  destruct (decide (is_categorized v = true)) as [Hcat|Hcat].
  - destruct v as [| | | |e]; try done.
    destruct (delattr_entity h self name e st Hinv Hst Hname)
      as (order' & bucket & Hdel & Hb & Hbn & ->).
    eexists _, _. split; [done|]. simpl. rewrite lookup_insert_eq.
    split_and!; try done.
    + intros e' He'. rewrite lookup_delete_None. by right.
    + intros e' He'. rewrite Hname in He'. injection He' as <-.
      by rewrite lookup_delete_eq.
  - eexists _, _. split.
    { unfold delattr. rewrite Hst, Hname. by destruct v. }
    simpl. rewrite lookup_insert_eq. split_and!; try done.
    intros e He. rewrite Hname in He. by injection He as ->.
Qed.

(** The state in which [__setattr__] registers a parentless object: the
    name has been cleared when it was bound. *)
Lemma setattr_parentless h self name e st :
  heap_inv ctype_of h → blocks h !! self = Some st →
  parents h !! e = None →
  ∃ h1 st1,
    setattr ctype_of self name (VEntity e) h
      = (Ok (), object_setattr self name (VEntity e)
                  (register ctype_of self name e h1))
    ∧ (if bool_decide (is_Some (attrs st !! name))
       then delattr ctype_of self name (add_log (Warning name) h) = (Ok (), h1)
       else h1 = h)
    ∧ heap_inv ctype_of h1
    ∧ blocks h1 !! self = Some st1
    ∧ attrs st1 !! name = None
    ∧ parents h1 !! e = None.
Proof.
  intros Hinv Hst Hp. unfold setattr. rewrite Hst, Hp.
  case_bool_decide as Hbound.
  - destruct (delattr_bound (add_log (Warning name) h) self name st
                (heap_inv_add_log _ _ Hinv) Hst Hbound)
      as (h1 & st1 & Hdel & Hst1 & Hattrs & _ & Hpar & _).
    exists h1, st1. rewrite Hdel. split_and!; try done.
    + pose proof (delattr_inv (add_log (Warning name) h) self name
                    (heap_inv_add_log _ _ Hinv)) as Hinv1.
      by rewrite Hdel in Hinv1.
    + by rewrite Hattrs, lookup_delete_eq.
    + by apply Hpar.
  - exists h, st. split_and!; try done.
    by apply eq_None_not_Some.
Qed.

Lemma register_inv h1 self name e st1 :
  heap_inv ctype_of h1 → blocks h1 !! self = Some st1 →
  attrs st1 !! name = None → parents h1 !! e = None →
  heap_inv ctype_of
    (object_setattr self name (VEntity e) (register ctype_of self name e h1)).
Proof.
  intros Hinv Hst Hname Hp.
  destruct (Hinv self st1 Hst) as (Hk & Hv & Hord & Hattr & Hbuck & Hne).
  assert (Hfresh : name ∉ (order st1).*1).
  { intros ([n e'] & -> & Hin)%list_elem_of_fmap.
    destruct (Hord _ _ Hin) as (_ & Ha & _). simpl in *. congruence. }
  assert (Hnew : ∀ b st n, blocks h1 !! b = Some st → (n, e) ∉ order st).
  { intros b st n Hb Hin.
    destruct (Hinv b st Hb) as (_ & _ & Hord' & _).
    destruct (Hord' _ _ Hin) as (Hp' & _). congruence. }
  unfold object_setattr, register. rewrite Hst. simpl.
  rewrite lookup_insert_eq. simpl. rewrite insert_insert_eq.
  rewrite od_set_fresh by done.
  set (bucket := default ∅ (byctype st1 !! ctype_of e)).
  intros b st' Hst'. simpl in Hst'.
  destruct (decide (b = self)) as [->|Hb'].
  - rewrite lookup_insert_eq in Hst'. injection Hst' as <-.
    split_and!; simpl.
    + rewrite fmap_app. apply NoDup_app. split_and!; [done| |apply NoDup_singleton].
      intros n Hn ->%list_elem_of_singleton. done.
    + rewrite fmap_app. apply NoDup_app. split_and!; [done| |apply NoDup_singleton].
      intros e' ([n e''] & He' & Hin)%list_elem_of_fmap Heq.
      apply list_elem_of_singleton in Heq. simpl in *. subst.
      by apply (Hnew self st1 n).
    + intros n e' [Hin| [= -> ->]%list_elem_of_singleton]%elem_of_app.
      * destruct (Hord n e' Hin) as (Hp' & Ha & bk & Hbk & Hbkn).
        assert (n ≠ name) as Hn by (intros ->; congruence).
        assert (e' ≠ e) as He by (intros ->; congruence).
        split_and!.
        -- by rewrite lookup_insert_ne.
        -- by rewrite lookup_insert_ne.
        -- destruct (decide (ctype_of e' = ctype_of e)) as [Hc|Hc].
           ++ rewrite Hc in *. exists (<[name := e]> bucket).
              rewrite lookup_insert_eq. split; [done|].
              rewrite lookup_insert_ne by done. unfold bucket.
              by rewrite Hbk.
           ++ exists bk. by rewrite lookup_insert_ne.
      * split_and!; [by rewrite lookup_insert_eq..|].
        exists (<[name := e]> bucket). by rewrite !lookup_insert_eq.
    + intros n e' Ha. apply elem_of_app.
      destruct (decide (n = name)) as [->|Hn].
      * rewrite lookup_insert_eq in Ha. injection Ha as <-. right. by left.
      * rewrite lookup_insert_ne in Ha by done. left. by apply Hattr.
    + intros c bk n e' Hbk Hbkn. rewrite elem_of_app.
      destruct (decide (c = ctype_of e)) as [->|Hc].
      * rewrite lookup_insert_eq in Hbk. injection Hbk as <-.
        destruct (decide (n = name)) as [->|Hn].
        -- rewrite lookup_insert_eq in Hbkn. injection Hbkn as <-.
           split; [done|]. right. by left.
        -- rewrite lookup_insert_ne in Hbkn by done. unfold bucket in Hbkn.
           destruct (byctype st1 !! ctype_of e) as [bk0|] eqn:E;
             simpl in Hbkn; [|by rewrite lookup_empty in Hbkn].
           destruct (Hbuck _ _ _ _ E Hbkn). auto.
      * rewrite lookup_insert_ne in Hbk by done.
        destruct (Hbuck _ _ _ _ Hbk Hbkn). auto.
    + intros c bk Hbk. destruct (decide (c = ctype_of e)) as [->|Hc].
      * rewrite lookup_insert_eq in Hbk. injection Hbk as <-.
        apply insert_non_empty.
      * rewrite lookup_insert_ne in Hbk by done. by apply (Hne c).
  - rewrite lookup_insert_ne in Hst' by done.
    apply (block_inv_parents h1); [by apply Hinv|].
    intros n e' Hin. simpl. apply lookup_insert_ne. intros <-.
    by apply (Hnew b st' n).
Qed.

Lemma setattr_inv h self name e :
  heap_inv ctype_of h →
  heap_inv ctype_of (setattr ctype_of self name (VEntity e) h).2.
Proof.
  intros Hinv.
  destruct (blocks h !! self) as [st|] eqn:Hst;
    [|by unfold setattr; rewrite Hst].
  destruct (parents h !! e) as [p|] eqn:Hp.
  - destruct (decide (attrs st !! name = Some (VEntity e))) as [Hname|Hname].
    + by rewrite (proj1 (attach_with_parent ctype_of h self name e p st Hst Hp)).
    + by rewrite (proj2 (attach_with_parent ctype_of h self name e p st Hst Hp)).
  - destruct (setattr_parentless h self name e st Hinv Hst Hp)
      as (h1 & st1 & -> & _ & Hinv1 & Hst1 & Hname1 & Hp1).
    simpl. by apply (register_inv h1 self name e st1).
Qed.

Lemma all_fresh_inv h : all_fresh h → heap_inv ctype_of h.
Proof.
  intros Hfresh b st Hst. rewrite (Hfresh b st Hst).
  split_and!; simpl.
  - constructor.
  - constructor.
  - by intros n e ?%elem_of_nil.
  - intros n e. by rewrite lookup_empty.
  - intros c bk n e. by rewrite lookup_empty.
  - intros c bk. by rewrite lookup_empty.
Qed.

Lemma reachable_inv h : reachable ctype_of h → heap_inv ctype_of h.
Proof.
  induction 1 as [h Hfresh|[b name e|b name] h _ IH]; simpl.
  - by apply all_fresh_inv.
  - by apply setattr_inv.
  - by apply delattr_inv.
Qed.


End invariant.


Lemma all_fresh_two_blocks : all_fresh two_blocks.
Proof.
  intros b st. unfold two_blocks. simpl.
  intros [[_ <-]|[_ [_ <-]%lookup_singleton_Some]]%lookup_insert_Some; done.
Qed.

Lemma reachable_example_heap : reachable example_ctype example_heap.
Proof. apply reachable_step, reachable_fresh, all_fresh_two_blocks. Qed.


(** ** Attaching over a bound name, and detaching *)

Section attach_detach.

Variable ctype_of : nat → ctype.

Lemma od_set_elem d k v : (k, v) ∈ od_set d k v.
Proof.
  induction d as [|[k' v'] d IH]; simpl; [by left|].
  case_decide; [by left|by right].
Qed.

Lemma register_result h1 self name e st1 :
  blocks h1 !! self = Some st1 →
  object_setattr self name (VEntity e) (register ctype_of self name e h1) =
  {| blocks :=
       <[self := {| order := od_set (order st1) name e;
                    byctype :=
                      <[ctype_of e :=
                          <[name := e]>
                            (default ∅ (byctype st1 !! ctype_of e))]>
                        (byctype st1);
                    active := active st1;
                    attrs := <[name := VEntity e]> (attrs st1) |}]>
         (blocks h1);
     parents := <[e := self]> (parents h1);
     log := log h1 |}.
Proof.
  intros Hst. unfold object_setattr, register. rewrite Hst. simpl.
  rewrite lookup_insert_eq. simpl. by rewrite insert_insert_eq.
Qed.

Lemma children_order h self ctype st n x :
  heap_inv ctype_of h → blocks h !! self = Some st →
  (n, x) ∈ children self ctype h → (n, x) ∈ order st.
Proof.
  intros Hinv Hst. unfold children. rewrite Hst.
  destruct (Hinv self st Hst) as (_ & _ & _ & _ & Hbuck & _).
  destruct ctype as [c|]; [|done].
  rewrite elem_of_map_to_list.
  destruct (byctype st !! c) as [bk|] eqn:E; simpl;
    [|by rewrite lookup_empty].
  intros Hx. by destruct (Hbuck c bk n x E Hx).
Qed.

Lemma children_parent h self ctype st n x :
  heap_inv ctype_of h → blocks h !! self = Some st →
  (n, x) ∈ children self ctype h →
  parents h !! x = Some self ∧ attrs st !! n = Some (VEntity x).
Proof.
  intros Hinv Hst Hx. pose proof (children_order _ _ _ _ _ _ Hinv Hst Hx) as Hin.
  destruct (Hinv self st Hst) as (_ & _ & Hord & _).
  by destruct (Hord n x Hin) as (? & ? & _).
Qed.

(** C4. On a block in a state kept by attaching and detaching, attaching
    a parentless object under a name bound to another object first logs a
    warning and detaches the old object, whose parent reference is
    cleared and which leaves the indices, and then attaches the new one:
    its parent is the block, and it is registered under the name in the
    order index and in the bucket of its category.  No error is raised. *)
Theorem attach_over_bound_name
    (h : heap) (self : nat) (name : string) (old new : nat)
    (st : block_state) :
  heap_inv ctype_of h →
  blocks h !! self = Some st →
  attrs st !! name = Some (VEntity old) →
  parents h !! new = None →
  ∃ h1 h' st',
    delattr ctype_of self name (add_log (Warning name) h) = (Ok (), h1)
    ∧ log h1 = log h ++ [Warning name]
    ∧ parents h1 !! old = None
    ∧ (∀ ctype n, (n, old) ∉ children self ctype h1)
    ∧ setattr ctype_of self name (VEntity new) h = (Ok (), h')
    ∧ h' = object_setattr self name (VEntity new)
             (register ctype_of self name new h1)
    ∧ log h' = log h ++ [Warning name]
    ∧ parents h' !! old = None
    ∧ parents h' !! new = Some self
    ∧ blocks h' !! self = Some st'
    ∧ attrs st' !! name = Some (VEntity new)
    ∧ (name, new) ∈ order st'
    ∧ (∃ bucket, byctype st' !! ctype_of new = Some bucket
                 ∧ bucket !! name = Some new)
    ∧ (∀ ctype n, (n, old) ∉ children self ctype h').
Proof.
  intros Hinv Hst Hname Hnew.
  destruct (setattr_parentless ctype_of h self name new st Hinv Hst Hnew)
    as (h1 & st1 & Hset & Hdel & Hinv1 & Hst1 & Hname1 & Hp1).
  rewrite bool_decide_eq_true_2 in Hdel by by rewrite Hname.
  destruct (delattr_bound ctype_of (add_log (Warning name) h) self name st
              (heap_inv_add_log _ _ _ Hinv) Hst ltac:(by rewrite Hname))
    as (h1' & st1' & Hdel' & _ & _ & Hlog & _ & Hold).
  rewrite Hdel in Hdel'. injection Hdel' as <-.
  specialize (Hold old Hname).
  assert (old ≠ new) as Hne.
  { intros ->.
    destruct (Hinv self st Hst) as (_ & _ & Hord & Hattr & _).
    destruct (Hord name new (Hattr name new Hname)) as (? & _). congruence. }
  pose proof (register_inv ctype_of h1 self name new st1 Hinv1 Hst1 Hname1 Hp1)
    as Hinv'.
  rewrite (register_result h1 self name new st1 Hst1) in *.
  eexists h1, _, _. split_and!; try done; simpl.
  - intros ctype n Hin.
    destruct (children_parent _ _ _ _ _ _ Hinv1 Hst1 Hin) as [? _]. congruence.
  - symmetry. by apply register_result.
  - by rewrite lookup_insert_ne.
  - by rewrite lookup_insert_eq.
  - by rewrite lookup_insert_eq.
  - simpl. by rewrite lookup_insert_eq.
  - simpl. apply od_set_elem.
  - simpl. eexists. rewrite lookup_insert_eq. split; [done|].
    by rewrite lookup_insert_eq.
  - intros ctype n Hin.
    eapply children_parent in Hin as [Hp _]; [|done|simpl; by rewrite lookup_insert_eq].
    simpl in Hp. rewrite lookup_insert_ne in Hp by done. congruence.
Qed.


End attach_detach.

Lemma heap_inv_example_heap : heap_inv example_ctype example_heap.
Proof. apply reachable_inv, reachable_example_heap. Qed.

Lemma attach_over_bound_name_witness :
  ∃ h',
    setattr example_ctype 1 "x" (VEntity 11) example_heap = (Ok (), h')
    ∧ log h' = [Warning "x"]
    ∧ parents h' !! 10 = None
    ∧ parents h' !! 11 = Some 1
    ∧ (∀ ctype n, (n, 10) ∉ children 1 ctype h').
Proof.
  destruct (attach_over_bound_name example_ctype example_heap 1 "x" 10 11
              (mk_block [("x", 10)]
                        {[ Category "Var" := {[ "x" := 10 ]} ]} true
                        {[ "x" := VEntity 10 ]})
              heap_inv_example_heap)
    as (h1 & h' & st' & _ & _ & _ & _ & Hset & _ & Hlog & Hold & Hnew & _
        & _ & _ & _ & Hch).
  - vm_compute. reflexivity.
  - vm_compute. reflexivity.
  - vm_compute. reflexivity.
  - exists h'. split_and!; [exact Hset|exact Hlog|exact Hold|exact Hnew|exact Hch].
Defined.


(** ** What [children] yields *)






(** Outside attaching and detaching: a value that is no component,
    assigned to a name that holds a component, leaves the component in
    the indices; a component of another category attached under that name
    afterwards takes the place in the order index, and the two indices
    differ. *)
Remark plain_assignment_over_component :
  let h1 := (setattr example_ctype 1 "x" (VPlain 7) example_heap).2 in
  let h2 := (setattr example_ctype 1 "x" (VEntity 11) h1).2 in
  children 1 None h1 = [("x", 10)]
  ∧ children 1 None h2 = [("x", 11)]
  ∧ children 1 (Some (Category "Var")) h2 = [("x", 10)].
Proof. vm_compute. done. Qed.

End HeapFacts.

Module TraversalFacts.
Import Tree TreeFacts.

(** ** The active filter only removes *)

Lemma flat_map_sublist_elem {A B} (f g : A → list B) l :
  (∀ x, x ∈ l → f x `sublist_of` g x) →
  flat_map f l `sublist_of` flat_map g l.
Proof.
  induction l as [|x l IH]; intros Hfg; simpl; [done|].
  apply sublist_app; [apply Hfg; by left|].
  apply IH. intros y ?. apply Hfg. by right.
Qed.








Lemma components_fuel_active_sublist n ctype descend self :
  components_fuel n ctype (Some true) descend self
  `sublist_of` components_fuel n ctype None descend self.
Proof.
  revert self. induction n as [|n IH]; intros self; simpl; [done|].
  case_match; [apply sublist_nil_l|]. apply sublist_app.
  - apply flat_map_sublist_elem. intros [key child] _.
    repeat case_match; try done; try apply sublist_nil_l.
    apply sublist_filter.
  - destruct descend; [|done].
    apply flat_map_sublist_elem. intros [key child] _.
    repeat case_match; try done; try apply sublist_nil_l.
    apply flat_map_sublist_elem. intros obj _.
    repeat case_match; try done; apply sublist_nil_l.
Qed.


(** ** The unfiltered traversals list the tree *)

Lemma keyed_nodes_stored_nil k o : stored o = [] → keyed_nodes k o = [(k, o)].
Proof.
  destruct o as [|? ? ? ch|? ? ? ch]; simpl; intros E; try subst ch; done.
Qed.

Lemma keyed_nodes_post_stored_nil k o :
  stored o = [] → keyed_nodes_post k o = [(k, o)].
Proof.
  destruct o as [|? ? ? ch|? ? ? ch]; simpl; intros E; try subst ch; done.
Qed.

Lemma within_stored c kc d :
  _is_component c = false → kc ∈ stored c → d ∈ within kc.2 → d ∈ within c.
Proof.
  intros Hc Hkc Hd. rewrite (within_unfold c), Hc. right.
  apply elem_of_flat_map. by exists kc.
Qed.

(** A container whose components store nothing is listed by its own
    traversal. *)
Lemma container_preorder_leaves k c :
  _is_component c = false →
  (∀ o, o ∈ within c → _is_component o = true → stored o = []) →
  container_preorder None k c = keyed_nodes k c.
Proof.
  revert k. induction c as [i ct a|i cls a ch IH|i ct a ch IH]
    using entity_nested_ind; intros k; try done.
  intros _ Hleaf. simpl. f_equal. apply flat_map_ext_elem. intros kc Hkc.
  rewrite Forall_forall in IH. destruct (_is_component kc.2) eqn:Hcomp.
  - rewrite keyed_nodes_stored_nil; [by destruct kc|].
    apply Hleaf; [|done]. eapply within_stored; [done..|apply within_self].
  - apply IH; [done..|]. intros o Ho. apply Hleaf.
    by eapply within_stored.
Qed.

Lemma container_postorder_leaves k c :
  _is_component c = false →
  (∀ o, o ∈ within c → _is_component o = true → stored o = []) →
  container_postorder None k c = keyed_nodes_post k c.
Proof.
  revert k. induction c as [i ct a|i cls a ch IH|i ct a ch IH]
    using entity_nested_ind; intros k; try done.
  intros _ Hleaf. simpl. f_equal. apply flat_map_ext_elem. intros kc Hkc.
  rewrite Forall_forall in IH. destruct (_is_component kc.2) eqn:Hcomp.
  - rewrite keyed_nodes_post_stored_nil; [by destruct kc|].
    apply Hleaf; [|done]. eapply within_stored; [done..|apply within_self].
  - apply IH; [done..|]. intros o Ho. apply Hleaf.
    by eapply within_stored.
Qed.

(** A container of blocks: walking each block found by the container's
    traversal lists the container. *)
Lemma container_preorder_blocks
    (bt : key → entity → list (key * entity)) ipb k c :
  _is_component c = false →
  (∀ ko o, o ∈ within c → _is_component o = true →
           bt ko o = keyed_nodes ko o) →
  flat_map (λ '(obj_key, obj),
      if negb (_is_component obj) then
        if is_no_ctype None || ctype_is Block None || ipb
        then [(obj_key, obj)] else []
      else bt obj_key obj)
    (container_preorder None k c)
  = keyed_nodes k c.
Proof.
  revert k. induction c as [i ct a|i cls a ch IH|i ct a ch IH]
    using entity_nested_ind; intros k; try done.
  intros _ Hbt. simpl. f_equal.
  rewrite flat_map_flat_map. apply flat_map_ext_elem. intros kc Hkc.
  rewrite Forall_forall in IH. destruct (_is_component kc.2) eqn:Hcomp.
  - simpl. rewrite Hcomp. simpl. rewrite app_nil_r. apply Hbt; [|done].
    eapply within_stored; [done..|apply within_self].
  - apply IH; [done..|]. intros ko o Ho. apply Hbt.
    by eapply within_stored.
Qed.

Lemma container_postorder_blocks
    (bt : key → entity → list (key * entity)) ipb k c :
  _is_component c = false →
  (∀ ko o, o ∈ within c → _is_component o = true →
           bt ko o = keyed_nodes_post ko o) →
  flat_map (λ '(obj_key, obj),
      if negb (_is_component obj) then
        if is_no_ctype None || ctype_is Block None || ipb
        then [(obj_key, obj)] else []
      else bt obj_key obj)
    (container_postorder None k c)
  = keyed_nodes_post k c.
Proof.
  revert k. induction c as [i ct a|i cls a ch IH|i ct a ch IH]
    using entity_nested_ind; intros k; try done.
  intros _ Hbt. simpl. rewrite flat_map_app. simpl. f_equal.
  rewrite flat_map_flat_map. apply flat_map_ext_elem. intros kc Hkc.
  rewrite Forall_forall in IH. destruct (_is_component kc.2) eqn:Hcomp.
  - simpl. rewrite Hcomp. simpl. rewrite app_nil_r. apply Hbt; [|done].
    eapply within_stored; [done..|apply within_self].
  - apply IH; [done..|]. intros ko o Ho. apply Hbt.
    by eapply within_stored.
Qed.

(** In a typed tree a container of another category than [Block] holds
    no block. *)
Lemma well_typed_within_leaf c o :
  well_typed c → ctype_of c ≠ Block →
  o ∈ within c → _is_component o = true → stored o = [].
Proof.
  intros Hwt Hct Ho Hcomp. apply (within_ctype _ _ Hwt) in Ho.
  destruct o; simpl in *; done || congruence.
Qed.

Lemma visit_child_keyed_nodes
    (bt ct listing : key → entity → list (key * entity)) ipb kc :
  well_typed kc.2 →
  (∀ k o, stored o = [] → listing k o = [(k, o)]) →
  (∀ k c, _is_component c = false →
     (∀ o, o ∈ within c → _is_component o = true → stored o = []) →
     ct k c = listing k c) →
  (∀ k c, _is_component c = false →
     (∀ ko o, o ∈ within c → _is_component o = true →
              bt ko o = listing ko o) →
     flat_map (λ '(obj_key, obj),
         if negb (_is_component obj) then
           if is_no_ctype None || ctype_is Block None || ipb
           then [(obj_key, obj)] else []
         else bt obj_key obj)
       (ct k c)
     = listing k c) →
  (∀ k o, o ∈ nodes kc.2 → _is_component o = true → bt k o = listing k o) →
  visit_child bt ct None None ipb kc = listing kc.1 kc.2.
Proof.
  destruct kc as [key child]. simpl. intros Hwt Hnil Hleaves Hblocks Hbt.
  destruct child as [i ct' a|i cls a ch|i ct' a ch]; simpl.
  - by rewrite Hnil.
  - apply Hbt; [apply elem_of_nodes_self|done].
  - case_bool_decide as Hct.
    + apply Hblocks; [done|]. intros ko o Ho. apply Hbt.
      by apply within_nodes.
    + apply Hleaves; [done|]. intros o. by apply well_typed_within_leaf.
Qed.

Lemma preorder_fuel_keyed_nodes n ipb k self :
  height self < n → well_typed self → _is_component self = true →
  preorder_fuel n None None ipb k self = keyed_nodes k self.
Proof.
  revert k self. induction n as [|n IH]; intros k self Hn Hwt Hcomp; [lia|].
  simpl. unfold yield_self. simpl. rewrite orb_true_r. simpl.
  destruct self as [i ct a|i cls a ch|]; try done. simpl. f_equal.
  apply flat_map_ext_elem. intros kc Hkc.
  assert (Hnode : kc.2 ∈ nodes (Blk i cls a ch)).
  { apply descendants_nodes, (stored_descendants kc.1). by destruct kc. }
  assert (height kc.2 < height (Blk i cls a ch))
    by (apply (height_stored kc.1); by destruct kc).
  apply (visit_child_keyed_nodes _ _ keyed_nodes).
  - by apply (well_typed_nodes (Blk i cls a ch)).
  - apply keyed_nodes_stored_nil.
  - apply container_preorder_leaves.
  - intros k' c. apply container_preorder_blocks.
  - intros k' o Ho Hocomp. apply IH; [|by eapply well_typed_nodes,
      nodes_trans|done].
    apply height_nodes in Ho. lia.
Qed.

Lemma postorder_fuel_keyed_nodes n ipb k self :
  height self < n → well_typed self → _is_component self = true →
  postorder_fuel n None None ipb k self = keyed_nodes_post k self.
Proof.
  revert k self. induction n as [|n IH]; intros k self Hn Hwt Hcomp; [lia|].
  simpl. unfold yield_self. simpl. rewrite orb_true_r. simpl.
  destruct self as [i ct a|i cls a ch|]; try done. simpl. f_equal.
  apply flat_map_ext_elem. intros kc Hkc.
  assert (Hnode : kc.2 ∈ nodes (Blk i cls a ch)).
  { apply descendants_nodes, (stored_descendants kc.1). by destruct kc. }
  assert (height kc.2 < height (Blk i cls a ch))
    by (apply (height_stored kc.1); by destruct kc).
  apply (visit_child_keyed_nodes _ _ keyed_nodes_post).
  - by apply (well_typed_nodes (Blk i cls a ch)).
  - apply keyed_nodes_post_stored_nil.
  - apply container_postorder_leaves.
  - intros k' c. apply container_postorder_blocks.
  - intros k' o Ho Hocomp. apply IH; [|by eapply well_typed_nodes,
      nodes_trans|done].
    apply height_nodes in Ho. lia.
Qed.

Lemma keyed_nodes_snd k e : (keyed_nodes k e).*2 = nodes e.
Proof.
  revert k. induction e as [i ct a|i cls a ch IH|i ct a ch IH]
    using entity_nested_ind; intros k; simpl; [done|..]; f_equal.
  all: induction IH as [|kc ch Hkc _ IHch]; [done|];
    rewrite !flat_map_cons_app, fmap_app, Hkc; by f_equal.
Qed.

(** X3. Without a category and without an active filter the traversals
    of a block list its whole tree: on a tree whose categories fit the
    classes, [preorder_traversal] yields every object below the block
    once per place where it is stored, under its storage key, each
    object before what it stores and in storage order;
    [postorder_traversal] yields the same objects, each after what it
    stores.  [include_parent_blocks] makes no difference. *)
Theorem traversal_lists_tree
    (ipb return_key : bool) (k : key) (self : entity) :
  well_typed self → _is_component self = true →
  preorder_traversal None None ipb return_key k self
  = Ok (emit return_key <$> keyed_nodes k self)
  ∧ postorder_traversal None None ipb return_key k self
    = Ok (emit return_key <$> keyed_nodes_post k self)
  ∧ (keyed_nodes k self).*2 = nodes self.
Proof.
  intros Hwt Hcomp. unfold preorder_traversal, postorder_traversal. simpl.
  unfold preorder, postorder.
  rewrite preorder_fuel_keyed_nodes, postorder_fuel_keyed_nodes by (done || lia).
  split_and!; [done..|]. apply keyed_nodes_snd.
Qed.

Lemma traversal_lists_tree_witness :
  preorder_traversal None None false true KeyNone scenario_M
  = Ok (emit true <$> keyed_nodes KeyNone scenario_M)
  ∧ postorder_traversal None None false true KeyNone scenario_M
    = Ok (emit true <$> keyed_nodes_post KeyNone scenario_M)
  ∧ (keyed_nodes KeyNone scenario_M).*2 = nodes scenario_M.
Proof.
  apply (traversal_lists_tree false true KeyNone scenario_M).
  - apply (bool_decide_unpack _). vm_compute. exact I.
  - reflexivity.
Defined.

(** ** [components] lists the components of a category *)

Lemma filter_flat_map {A B} (P : B → Prop) `{!∀ x, Decision (P x)}
    (f : A → list B) l :
  filter P (flat_map f l) = flat_map (λ x, filter P (f x)) l.
Proof.
  induction l as [|x l IH]; [done|]. simpl. by rewrite filter_app, IH.
Qed.

Lemma flat_map_filter {A B} (Q : A → Prop) `{!∀ x, Decision (Q x)}
    (f : A → list B) l :
  flat_map f (filter Q l) = flat_map (λ x, if decide (Q x) then f x else []) l.
Proof.
  induction l as [|x l IH]; [done|]. rewrite filter_cons. simpl.
  destruct (decide (Q x)); simpl; by rewrite IH.
Qed.

Lemma flat_map_app_Permutation {A B} (f g : A → list B) l :
  flat_map f l ++ flat_map g l ≡ₚ flat_map (λ x, f x ++ g x) l.
Proof.
  induction l as [|x l IH]; [done|]. simpl. rewrite <-IH.
  rewrite <-!app_assoc. f_equiv. rewrite !app_assoc. f_equiv.
  apply Permutation_app_comm.
Qed.

Lemma flat_map_nil_elem {A B} (f : A → list B) l :
  (∀ x, x ∈ l → f x = []) → flat_map f l = [].
Proof.
  induction l as [|x l IH]; intros Hf; [done|]. simpl.
  rewrite Hf by left. apply IH. intros y ?. apply Hf. by right.
Qed.

(** The direct part of [components]: the category bucket of a block is
    what it stores of that category. *)
Lemma flat_map_children {B} (f : key * entity → list B) self ctype :
  flat_map f (children self ctype)
  = flat_map (λ kc, if is_no_ctype ctype || ctype_is (ctype_of kc.2) ctype
                    then f kc else []) (stored self).
Proof.
  destruct ctype as [c|]; simpl.
  - rewrite flat_map_filter. apply flat_map_ext_elem. intros kc _.
    unfold ctype_is. destruct (decide (ctype_of kc.2 = c)) as [->| Hne].
    + by rewrite bool_decide_eq_true_2.
    + rewrite bool_decide_eq_false_2; [done|congruence].
  - by apply flat_map_ext_elem.
Qed.

Lemma filter_component_of_nodes ctype o :
  _is_component o = true →
  filter (λ x, component_of ctype x = true) (nodes o)
  = (if is_no_ctype ctype || ctype_is (ctype_of o) ctype then [o] else [])
    ++ filter (λ x, component_of ctype x = true) (descendants o).
Proof.
  intros Hcomp. rewrite nodes_unfold, filter_cons.
  case_decide as H; unfold component_of in H; rewrite Hcomp in H;
    simpl in H.
  - by rewrite H.
  - by apply not_true_is_false in H as ->.
Qed.

(** The components of a category in and below a list or dict container:
    those the container holds, and those stored below them. *)
Lemma filter_component_of_container ctype c :
  well_typed c → _is_component c = false →
  filter (λ x, component_of ctype x = true) (nodes c)
  ≡ₚ (if is_no_ctype ctype || ctype_is (ctype_of c) ctype
      then container_components c else [])
     ++ flat_map (λ p, filter (λ x, component_of ctype x = true)
                              (descendants p))
                 (container_components c).
Proof.
  induction c as [i ct a|i cls a ch IH|i ct a ch IH]
    using entity_nested_ind; intros Hwt Hcomp; try done.
  rewrite nodes_unfold, filter_cons.
  case_decide; [done|]. unfold descendants. simpl.
  rewrite filter_flat_map, flat_map_flat_map.
  set (F := λ kc : key * entity,
         if _is_component kc.2 then [kc.2] else container_components kc.2).
  set (G := λ p, filter (λ x, component_of ctype x = true) (descendants p)).
  transitivity
    (flat_map (λ kc, (if is_no_ctype ctype || ctype_is ct ctype
                      then F kc else [])
                     ++ flat_map G (F kc)) ch).
  - apply flat_map_Permutation_elem. intros kc Hkc.
    rewrite Forall_forall in IH.
    assert (Hnode : kc.2 ∈ nodes (Cont i ct a ch)).
    { apply descendants_nodes, (stored_descendants kc.1). by destruct kc. }
    assert (Hct : ctype_of kc.2 = ct).
    { by apply (Hwt (Cont i ct a ch) (elem_of_nodes_self _)). }
    unfold F. destruct (_is_component kc.2) eqn:Hk.
    + rewrite filter_component_of_nodes, Hct by done. simpl.
      by rewrite app_nil_r.
    + by rewrite (IH kc Hkc (well_typed_nodes _ _ Hwt Hnode) Hk), Hct.
  - rewrite <-flat_map_app_Permutation. f_equiv; [|reflexivity].
    destruct (is_no_ctype ctype || ctype_is ct ctype); [done|].
    by rewrite flat_map_nil_elem.
Qed.

Lemma components_body_Permutation ctype self :
  well_typed self →
  components_body ctype None true self
  ≡ₚ filter (λ x, component_of ctype x = true) (descendants self).
Proof.
  remember (height self) as n eqn:Hn. revert self Hn.
  induction (lt_wf n) as [n _ IH]. intros self -> Hwt.
  rewrite components_None_unfold, flat_map_children.
  rewrite (flat_map_children _ self (Some Block)).
  rewrite flat_map_app_Permutation. unfold descendants at 1.
  rewrite filter_flat_map. apply flat_map_Permutation_elem.
  intros [k child] Hkc. simpl.
  assert (Hnode : child ∈ nodes self).
  { by apply descendants_nodes, (stored_descendants k). }
  assert (Hwtc : well_typed child) by by apply (well_typed_nodes self).
  assert (Hbelow : ∀ p, p ∈ nodes child →
            components_body ctype None true p
            ≡ₚ filter (λ x, component_of ctype x = true) (descendants p)).
  { intros p Hp. apply (IH (height p)); [|done|].
    - apply height_nodes in Hp. apply height_stored in Hkc. lia.
    - by apply (well_typed_nodes child). }
  destruct (_is_component child) eqn:Hcomp.
  - rewrite filter_component_of_nodes by done. f_equiv.
    unfold ctype_is. case_bool_decide as Hct; simpl.
    + apply Hbelow, elem_of_nodes_self.
    + by destruct child.
  - rewrite filter_component_of_container by done. f_equiv.
    unfold ctype_is. case_bool_decide as Hct; simpl.
    + apply flat_map_Permutation_elem. intros p Hp.
      apply Hbelow, descendants_nodes. by apply container_components_nodes.
    + symmetry. rewrite flat_map_nil_elem; [done|]. intros p Hp.
      apply container_components_within in Hp as (_ & Hp & Hpc).
      unfold descendants.
      rewrite (well_typed_within_leaf child p); try done.
      intros E. apply Hct. by rewrite E.
Qed.

Lemma unique_ids_NoDup_descendants self :
  unique_ids self → NoDup (descendants self).
Proof.
  unfold unique_ids, oids. intros Hnd%NoDup_fmap_1.
  rewrite nodes_unfold in Hnd. by apply NoDup_cons in Hnd as [_ ?].
Qed.

(** X4. On a tree whose categories fit the classes,
    [components(ctype, active=None, descend_into=True)] yields exactly
    the components of the category stored anywhere below the block, each
    once per place where it is stored and never the block itself or a
    list or dict container; without a category, every component.
    [blocks] yields the block itself and then the blocks stored below it
    in the same way.  Where no object is stored twice, nothing is yielded
    twice. *)
Theorem components_lists_components (ctype : ctype_arg) (self : entity) :
  well_typed self → _is_component self = true →
  ∃ comps blks,
    components ctype None true self = Ok comps
    ∧ blocks None true self = Ok (self :: blks)
    ∧ comps ≡ₚ filter (λ o, component_of ctype o = true) (descendants self)
    ∧ blks ≡ₚ filter (λ o, is_block o = true) (descendants self)
    ∧ (unique_ids self → NoDup comps ∧ NoDup (self :: blks)).
Proof.
  intros Hwt Hcomp. eexists _, _. split_and!; [done..| | |].
  - by apply components_body_Permutation.
  - rewrite components_body_Permutation by done.
    assert (Heq : ∀ l, Forall (λ o, o ∈ nodes self) l →
      filter (λ o, component_of (Some Block) o = true) l
      = filter (λ o, is_block o = true) l).
    { induction l as [|o l IH]; [done|]. intros [Ho Hl]%Forall_cons.
      rewrite !filter_cons, IH by done.
      assert (component_of (Some Block) o = is_block o) as ->; [|done].
      unfold component_of, is_block, ctype_is. simpl.
      destruct (_is_component o) eqn:Hc; [|done]. simpl.
      case_bool_decide as Hct.
      - symmetry.
        assert (is_block o = true) as Hb; [|by rewrite <-Hb; unfold is_block; rewrite Hc].
        apply (well_typed_component_block self); try done. congruence.
      - destruct o; try done. }
    rewrite Heq; [done|]. apply Forall_forall. intros o.
    apply descendants_nodes.
  - intros Hnd. pose proof (unique_ids_NoDup_descendants _ Hnd) as Hd.
    split.
    + rewrite components_body_Permutation by done. by apply NoDup_filter.
    + apply NoDup_cons. rewrite components_body_Permutation by done. split.
      * intros [_ ?]%list_elem_of_filter. by eapply not_descendant_self.
      * by apply NoDup_filter.
Qed.

Lemma components_lists_components_witness :
  ∃ comps blks,
    components (Some (Category "Var")) None true scenario_M = Ok comps
    ∧ blocks None true scenario_M = Ok (scenario_M :: blks)
    ∧ comps ≡ₚ filter (λ o, component_of (Some (Category "Var")) o = true)
                      (descendants scenario_M)
    ∧ blks ≡ₚ filter (λ o, is_block o = true) (descendants scenario_M)
    ∧ (unique_ids scenario_M → NoDup comps ∧ NoDup (scenario_M :: blks)).
Proof.
  apply (components_lists_components (Some (Category "Var")) scenario_M).
  - apply (bool_decide_unpack _). vm_compute. exact I.
  - reflexivity.
Defined.

(** ** [components(active=True)] *)






(** ** [generate_names(descend_into=False)] *)

Lemma names_loop_children cd ce convert prefix self names l :
  is_block self = true → (∀ ko, ko ∈ l → ko ∈ stored self) →
  names_loop cd ce convert prefix self names l
  = Ok (foldl (λ m ko, <[oid ko.2 := prefix +:+ convert ko.1]> m) names l).
Proof.
  intros Hblk. revert names. induction l as [|ko l IH]; intros names Hl;
    [done|].
  simpl. unfold names_step. rewrite parent_below_unfold.
  rewrite bool_decide_eq_true_2.
  - rewrite bool_decide_eq_false_2 by (by intros []).
    rewrite IH; [by destruct self|]. intros ko' ?. apply Hl. by right.
  - apply list_elem_of_fmap. exists ko. split; [done|]. apply Hl. by left.
Qed.

Lemma foldl_insert_lookup_ne {A} (f : A → nat) (g : A → string) l
    (m : gmap nat string) j :
  j ∉ f <$> l → foldl (λ m x, <[f x := g x]> m) m l !! j = m !! j.
Proof.
  revert m. induction l as [|x l IH]; intros m Hj; [done|]. simpl.
  rewrite fmap_cons, not_elem_of_cons in Hj. destruct Hj as [Hne Hj].
  rewrite IH by done. by rewrite lookup_insert_ne.
Qed.

Lemma foldl_insert_is_Some {A} (f : A → nat) (g : A → string) l
    (m : gmap nat string) j :
  is_Some (foldl (λ m x, <[f x := g x]> m) m l !! j)
  ↔ is_Some (m !! j) ∨ j ∈ f <$> l.
Proof.
  revert m. induction l as [|x l IH]; intros m; simpl.
  - split; [by left|]. by intros [?|?%elem_of_nil].
  - rewrite IH, lookup_insert_is_Some', elem_of_cons.
    split; [intros [[?|?]|?]|intros [?|[?|?]]]; auto.
Qed.

Lemma foldl_insert_lookup {A} (f : A → nat) (g : A → string) l
    (m : gmap nat string) x :
  NoDup (f <$> l) → x ∈ l →
  foldl (λ m x, <[f x := g x]> m) m l !! f x = Some (g x).
Proof.
  revert m. induction l as [|y l IH]; intros m Hnd Hx;
    [by apply elem_of_nil in Hx|].
  rewrite fmap_cons in Hnd. apply NoDup_cons in Hnd as [Hy Hnd]. simpl.
  apply elem_of_cons in Hx as [->|Hx]; [|by apply IH].
  rewrite foldl_insert_lookup_ne by done. by rewrite lookup_insert_eq.
Qed.

Lemma unique_ids_NoDup_stored self :
  unique_ids self → NoDup ((oid ∘ snd) <$> stored self).
Proof.
  unfold unique_ids, oids. rewrite nodes_unfold, fmap_cons.
  intros [_ Hnd]%NoDup_cons. eapply sublist_NoDup; [exact Hnd|].
  unfold descendants. induction (stored self) as [|kc l IH]; [done|].
  rewrite flat_map_cons_app, nodes_unfold, !fmap_cons, fmap_app.
  simpl. apply sublist_skip. by apply sublist_inserts_l.
Qed.

(** X6. [generate_names] without descending names exactly the objects
    that the block stores of the category asked for, each [prefix]
    followed by its converted key; the active filter is applied to the
    block only, not to what it stores.  It raises nothing. *)
Theorem generate_names_children
    (container_delimiter : string) (container_entry : string → string)
    (ctype : ctype_arg) (active : active_arg)
    (convert : key → string) (prefix : string) (self : entity) :
  active_in_None_True active = true →
  is_block self = true →
  unique_ids self →
  ∃ names,
    generate_names container_delimiter container_entry ctype active false
                   convert prefix self = Ok names
    ∧ (truthy active && negb (getattr_active self) = true → names = ∅)
    ∧ (truthy active && negb (getattr_active self) = false →
       (∀ j, is_Some (names !! j)
             ↔ j ∈ (oid ∘ snd) <$> children self ctype)
       ∧ ∀ k obj, (k, obj) ∈ children self ctype →
           names !! oid obj = Some (prefix +:+ convert k)).
Proof.
  intros Hact Hblk Hnd. unfold generate_names. rewrite Hact. simpl.
  destruct (truthy active && negb (getattr_active self)) eqn:Hself.
  { by exists ∅. }
  rewrite names_loop_children; [|done|apply children_stored].
  eexists. split_and!; [done..|]. intros _. split.
  - intros j. rewrite foldl_insert_is_Some, lookup_empty.
    split; [by intros [[]%is_Some_None|?]|by right].
  - intros k obj Hko.
    apply (foldl_insert_lookup (oid ∘ snd) (λ ko, prefix +:+ convert ko.1)
             _ _ (k, obj)); [|done].
    eapply sublist_NoDup; [by apply unique_ids_NoDup_stored|].
    apply fmap_sublist. destruct ctype; simpl; [apply sublist_filter|done].
Qed.

Lemma generate_names_children_witness :
  ∃ names,
    generate_names "." id None (Some true) false str "m." scenario_B = Ok names
    ∧ (truthy (Some true) && negb (getattr_active scenario_B) = true →
       names = ∅)
    ∧ (truthy (Some true) && negb (getattr_active scenario_B) = false →
       (∀ j, is_Some (names !! j)
             ↔ j ∈ (oid ∘ snd) <$> children scenario_B None)
       ∧ ∀ k obj, (k, obj) ∈ children scenario_B None →
           names !! oid obj = Some ("m." +:+ str k)).
Proof.
  apply (generate_names_children "." id None (Some true) str "m." scenario_B).
  - reflexivity.
  - reflexivity.
  - apply (bool_decide_unpack _). vm_compute. exact I.
Defined.

(** ** [collect_ctypes] and the active filter *)

Lemma collect_ctypes_here_active blk :
  is_block blk = true →
  ∃ s, collect_ctypes_here (Some true) blk = Ok s ∧ s ⊆ categories_here blk.
Proof.
  destruct blk as [|i [] a ch|]; try done; intros _;
    unfold collect_ctypes_here; simpl.
  - eexists. split; [done|]. intros c [Hc _]%elem_of_first_match.
    apply elem_of_list_to_set. by rewrite elem_of_remove_dups in Hc.
  - eexists. split; [done|]. intros c.
    rewrite !elem_of_list_to_set, !list_elem_of_fmap.
    intros (o & -> & Ho). exists o. split; [done|].
    rewrite <-components_direct.
    eapply elem_of_sublist; [done|].
    apply components_fuel_active_sublist.
Qed.

Lemma collect_ctypes_fold_active blks s :
  Forall (λ b, is_block b = true) blks →
  ∃ s',
    foldl (λ ctypes blk,
             match ctypes with
             | Raise e => Raise e
             | Ok s =>
                 match collect_ctypes_here (Some true) blk with
                 | Raise e => Raise e
                 | Ok t => Ok (s ∪ t)
                 end
             end) (Ok s) blks
    = Ok s'
    ∧ s' ⊆ s ∪ ⋃ (categories_here <$> blks).
Proof.
  intros Hall. revert s. induction Hall as [|b blks Hb _ IH]; intros s; simpl.
  - exists s. split; [done|]. by apply union_subseteq_l.
  - destruct (collect_ctypes_here_active b Hb) as (t & -> & Ht).
    destruct (IH (s ∪ t)) as (s' & -> & Hs'). exists s'. split; [done|].
    intros c Hc. apply Hs' in Hc. rewrite !elem_of_union in *.
    destruct Hc as [[?|?]|?]; auto.
Qed.

Lemma union_list_sublist (l1 l2 : list (gset ctype)) :
  l1 `sublist_of` l2 → ⋃ l1 ⊆ ⋃ l2.
Proof.
  intros Hsub c (X & HX & Hc)%elem_of_union_list.
  apply elem_of_union_list. exists X. split; [|done].
  by apply (elem_of_sublist l1 l2).
Qed.

(** X7. On a tree whose categories fit the classes, [collect_ctypes] on
    a block raises nothing for [active=None] and [active=True], and the
    categories it returns for [active=True] are among those it returns
    for [active=None]. *)
Theorem collect_ctypes_active_subset (descend_into : bool) (self : entity) :
  well_typed self → is_block self = true →
  ∃ ctypes_active ctypes_all,
    collect_ctypes (Some true) descend_into self = Ok ctypes_active
    ∧ collect_ctypes None descend_into self = Ok ctypes_all
    ∧ ctypes_active ⊆ ctypes_all.
Proof.
  intros Hwt Hblk. destruct descend_into.
  - rewrite collect_ctypes_None_descend by done.
    assert (Hall : Forall (λ b, is_block b = true)
                     (blocks_body None true self)).
    { rewrite blocks_body_None. constructor; [done|].
      apply Forall_forall. intros x Hx.
      by apply components_Block_blocks in Hx as [? _]. }
    assert (Hsub : blocks_body (Some true) true self
                   `sublist_of` blocks_body None true self).
    { unfold blocks_body. simpl. case_match; [|apply sublist_nil_l].
      apply sublist_skip, components_fuel_active_sublist. }
    destruct (collect_ctypes_fold_active (blocks_body (Some true) true self) ∅)
      as (s & Hs & Hsubset).
    { apply Forall_forall. intros b Hb. rewrite Forall_forall in Hall.
      apply Hall. by apply (elem_of_sublist _ _ b Hb). }
    exists s, (⋃ (categories_here <$> blocks_body None true self)).
    split_and!; [done..|].
    etrans; [done|]. rewrite (left_id_L ∅ (∪)).
    by apply union_list_sublist, fmap_sublist.
  - unfold collect_ctypes. simpl.
    destruct (collect_ctypes_here_active self Hblk) as (s & -> & Hs).
    rewrite collect_ctypes_here_None by done. by eexists _, _.
Qed.

Lemma collect_ctypes_active_subset_witness :
  ∃ ctypes_active ctypes_all,
    collect_ctypes (Some true) true scenario_M = Ok ctypes_active
    ∧ collect_ctypes None true scenario_M = Ok ctypes_all
    ∧ ctypes_active ⊆ ctypes_all.
Proof.
  apply (collect_ctypes_active_subset true scenario_M).
  - apply (bool_decide_unpack _). vm_compute. exact I.
  - reflexivity.
Defined.

(** ** What a filtered traversal yields *)

Lemma container_preorder_within active k c ko :
  ko ∈ container_preorder active k c →
  ko.2 ∈ within c ∧ (active = Some true → getattr_active ko.2 = true).
Proof.
  revert k. induction c as [i ct a|i cls a ch IH|i ct a ch IH]
    using entity_nested_ind; intros k; simpl;
    try by intros ?%elem_of_nil.
  destruct (negb (is_None active) && negb (getattr_active (Cont i ct a ch)))
    eqn:Hself; [by intros ?%elem_of_nil|].
  intros [->|Hko]%elem_of_cons.
  - split; [by left|]. intros ->. simpl in Hself.
    by apply negb_false_iff in Hself.
  - apply elem_of_flat_map in Hko as (kc & Hkc & Hko).
    rewrite Forall_forall in IH.
    destruct (is_None active || getattr_active kc.2) eqn:Hact;
      [|by apply elem_of_nil in Hko].
    destruct (_is_component kc.2) eqn:Hcomp.
    + apply list_elem_of_singleton in Hko as ->. simpl. split.
      * right. apply elem_of_flat_map. exists kc. split; [done|].
        apply within_self.
      * by intros ->.
    + destruct (IH kc Hkc _ Hko) as [Hw Ha]. split; [|done].
      right. apply elem_of_flat_map. by exists kc.
Qed.

Lemma visit_child_filtered
    (bt : key → entity → list (key * entity)) ctype active ipb kc x :
  well_typed kc.2 →
  (∀ k o y, o ∈ nodes kc.2 → is_block o = true → y ∈ bt k o →
     (∀ c, ctype = Some c →
        ctype_of y.2 = c ∨ (ctype_of y.2 = Block ∧ ipb = true))
     ∧ (active = Some true → getattr_active y.2 = true)) →
  x ∈ visit_child bt (container_preorder active) ctype active ipb kc →
  (∀ c, ctype = Some c →
     ctype_of x.2 = c ∨ (ctype_of x.2 = Block ∧ ipb = true))
  ∧ (active = Some true → getattr_active x.2 = true).
Proof.
  destruct kc as [key child]. simpl. intros Hwt Hbt.
  destruct (is_no_ctype ctype || ctype_is (ctype_of child) ctype
            || bool_decide (ctype_of child = Block)) eqn:Hcat;
    [|by intros ?%elem_of_nil].
  destruct (is_None active || getattr_active child) eqn:Hact;
    [|by intros ?%elem_of_nil].
  assert (Hleaf : _is_container child = false → ctype_of child ≠ Block).
  { apply (Hwt child (elem_of_nodes_self _)). }
  assert (Hmatch : ctype_of child ≠ Block →
                   ∀ c, ctype = Some c → ctype_of child = c).
  { intros Hne c ->. unfold ctype_is in Hcat. simpl in Hcat.
    rewrite (bool_decide_eq_false_2 (ctype_of child = Block)) in Hcat by done.
    rewrite orb_false_r in Hcat. apply bool_decide_eq_true_1 in Hcat.
    congruence. }
  destruct (_is_container child) eqn:Hcont; simpl.
  2:{ intros ->%list_elem_of_singleton. simpl. split.
      - intros c Hc. left. by apply Hmatch; [apply Hleaf|].
      - intros ->. by simpl in Hact. }
  destruct (_is_component child) eqn:Hcomp; simpl.
  { apply Hbt; [apply elem_of_nodes_self|].
    unfold is_block. by rewrite Hcomp, Hcont. }
  case_bool_decide as Hct.
  - intros ([ok o] & Ho & Hx)%elem_of_flat_map.
    destruct (container_preorder_within _ _ _ _ Ho) as [Hw Ha].
    simpl in Hw, Ha.
    assert (Hoct : ctype_of o = Block)
      by by rewrite (within_ctype _ _ Hwt Hw).
    destruct (_is_component o) eqn:Hocomp; simpl in Hx.
    + apply (Hbt ok o); [by apply within_nodes| |done].
      apply (well_typed_component_block _ o Hwt); try done.
      by apply within_nodes.
    + destruct (is_no_ctype ctype || ctype_is Block ctype || ipb) eqn:Hy;
        [|by apply elem_of_nil in Hx].
      apply list_elem_of_singleton in Hx as ->. simpl. split; [|done].
      intros c ->. unfold ctype_is in Hy. simpl in Hy.
      apply orb_true_iff in Hy as [Hy| ->]; [|by right].
      apply bool_decide_eq_true_1 in Hy. left. congruence.
  - intros Hx. destruct (container_preorder_within _ _ _ _ Hx) as [Hw Ha].
    split; [|done]. intros c Hc. left.
    rewrite (within_ctype _ _ Hwt Hw). by apply Hmatch.
Qed.

Lemma preorder_fuel_filtered n ctype active ipb k self x :
  well_typed self → is_block self = true →
  x ∈ preorder_fuel n ctype active ipb k self →
  (∀ c, ctype = Some c →
     ctype_of x.2 = c ∨ (ctype_of x.2 = Block ∧ ipb = true))
  ∧ (active = Some true → getattr_active x.2 = true).
Proof.
  revert k self x. induction n as [|n IH]; intros k self x Hwt Hblk;
    [by intros ?%elem_of_nil|].
  simpl. destruct (truthy active && negb (getattr_active self)) eqn:Hself;
    [by intros ?%elem_of_nil|].
  intros [Hx|Hx]%elem_of_app.
  - unfold yield_self in Hx.
    destruct (ipb || is_no_ctype ctype || ctype_is Block ctype) eqn:Hy;
      [|by apply elem_of_nil in Hx].
    apply list_elem_of_singleton in Hx as ->. simpl. split.
    + intros c ->. rewrite (is_block_ctype self Hblk).
      unfold ctype_is in Hy. simpl in Hy. rewrite orb_false_r in Hy.
      apply orb_true_iff in Hy as [->|Hy]; [by right|].
      apply bool_decide_eq_true_1 in Hy. left. congruence.
    + intros ->. simpl in Hself. by apply negb_false_iff in Hself.
  - apply elem_of_flat_map in Hx as (kc & Hkc & Hx).
    assert (Hnode : kc.2 ∈ nodes self).
    { apply descendants_nodes, (stored_descendants kc.1). by destruct kc. }
    apply (visit_child_filtered _ _ _ _ kc x) in Hx; [done| |].
    + by apply (well_typed_nodes self).
    + intros k' o y Ho Hoblk Hy. apply (IH k' o y); [|done..].
      apply (well_typed_nodes self); [done|]. by eapply nodes_trans.
Qed.

(** X8. What a filtered traversal of a block yields, on a tree whose
    categories fit the classes.  With a category, [preorder_traversal]
    and [postorder_traversal] yield only objects of that category and,
    when [include_parent_blocks] is set, blocks and containers of
    blocks; with [active=True], every object they yield has an [active]
    flag that is not [False]. *)
Theorem traversal_yields_filtered
    (ctype : ctype_arg) (active : active_arg) (ipb : bool) (k : key)
    (self : entity) :
  well_typed self → is_block self = true →
  ∀ x, x ∈ preorder ctype active ipb k self
       ∨ x ∈ postorder ctype active ipb k self →
    (∀ c, ctype = Some c →
       ctype_of x.2 = c ∨ (ctype_of x.2 = Block ∧ ipb = true))
    ∧ (active = Some true → getattr_active x.2 = true).
Proof.
  intros Hwt Hblk x Hx. apply (preorder_fuel_filtered
    (S (height self)) ctype active ipb k self x Hwt Hblk).
  destruct Hx as [Hx|Hx]; [done|].
  by rewrite (preorder_postorder_Permutation ctype active ipb k self).
Qed.

Lemma traversal_yields_filtered_witness :
  (∀ c, Some (Category "Var") = Some c →
     ctype_of scenario_x = c ∨ (ctype_of scenario_x = Block ∧ false = true))
  ∧ (Some true = Some true → getattr_active scenario_x = true).
Proof.
  apply (traversal_yields_filtered (Some (Category "Var")) (Some true) false
           KeyNone scenario_M
           ltac:(apply (bool_decide_unpack _); vm_compute; exact I)
           ltac:(reflexivity)
           (KeyStr "x", scenario_x)).
  left. vm_compute. left.
Defined.

(** ** Parents come first *)



End TraversalFacts.

Module BlockFacts.
Import Heap HeapFacts.

Lemma NoDup_snd_inj {A B} (l : list (A * B)) a b x :
  NoDup l.*2 → (a, x) ∈ l → (b, x) ∈ l → a = b.
Proof.
  induction l as [|[a' x'] l IH]; [by intros _ ?%elem_of_nil|].
  rewrite fmap_cons. intros [Hx Hnd]%NoDup_cons. simpl in Hx.
  intros Ha Hb. apply elem_of_cons in Ha as [Ha|Ha];
    apply elem_of_cons in Hb as [Hb|Hb].
  - congruence.
  - injection Ha as -> ->.
    exfalso. apply Hx. apply list_elem_of_fmap. by exists (b, x').
  - injection Hb as -> ->.
    exfalso. apply Hx. apply list_elem_of_fmap. by exists (a, x').
  - by apply IH.
Qed.



Section block_facts.

Variable ctype_of : nat → ctype.

(** ** [child_key] *)

Lemma child_key_spec h self e st :
  heap_inv ctype_of h → blocks h !! self = Some st →
  (∀ n, (n, e) ∈ order st → child_key ctype_of self e h = Ok n)
  ∧ ((∀ n, (n, e) ∉ order st) →
     child_key ctype_of self e h = Raise ValueError).
Proof.
  intros Hinv Hst. unfold child_key. rewrite Hst.
  destruct (Hinv self st Hst) as (Hk & Hv & Hord & Hattr & Hbuck & Hne).
  split.
  - intros n Hin. destruct (Hord n e Hin) as (_ & _ & bucket & Hb & Hn).
    rewrite Hb.
    destruct (list_find _ _) as [[i [k v]]|] eqn:E.
    + apply list_find_Some in E as (Hi & Hval & _). simpl in Hval. subst v.
      apply list_elem_of_lookup_2, elem_of_map_to_list in Hi.
      destruct (Hbuck _ _ _ _ Hb Hi) as [_ Hin'].
      f_equal. by apply (NoDup_snd_inj (order st) k n e).
    + apply list_find_None in E. rewrite Forall_forall in E.
      exfalso. apply (E (n, e)); [|done]. by apply elem_of_map_to_list.
  - intros Hnot. destruct (byctype st !! ctype_of e) as [bucket|] eqn:Hb;
      [|done].
    destruct (list_find _ _) as [[i [k v]]|] eqn:E; [|done].
    apply list_find_Some in E as (Hi & Hval & _). simpl in Hval. subst v.
    apply list_elem_of_lookup_2, elem_of_map_to_list in Hi.
    destruct (Hbuck _ _ _ _ Hb Hi) as [_ Hin]. by destruct (Hnot k).
Qed.

(** X10. On a block whose indices are consistent, [child_key] returns the
    name under which the block stores the object, exactly when the block
    stores it; it then is the name bound to the object, in the bucket of
    its category, and the object's parent is the block.  For an object
    that the block does not store it raises [ValueError]. *)
Theorem child_key_children
    (h : heap) (self e : nat) (st : block_state) :
  heap_inv ctype_of h →
  blocks h !! self = Some st →
  (∀ n, child_key ctype_of self e h = Ok n ↔ (n, e) ∈ children self None h)
  ∧ (child_key ctype_of self e h = Raise ValueError
     ↔ e ∉ (children self None h).*2)
  ∧ (∀ n, child_key ctype_of self e h = Ok n →
       (n, e) ∈ children self (Some (ctype_of e)) h
       ∧ attrs st !! n = Some (VEntity e)
       ∧ parents h !! e = Some self).
Proof.
  intros Hinv Hst.
  destruct (child_key_spec h self e st Hinv Hst) as [Hin Hout].
  destruct (Hinv self st Hst) as (Hk & Hv & Hord & Hattr & Hbuck & Hne).
  assert (Hch : children self None h = order st)
    by (unfold children; by rewrite Hst).
  assert (Hcases : (∃ n, (n, e) ∈ order st) ∨ ∀ n, (n, e) ∉ order st).
  { destruct (decide (e ∈ (order st).*2)) as [He|He].
    - left. apply list_elem_of_fmap in He as ([n x] & Heq & ?).
      simpl in Heq. subst x. by exists n.
    - right. intros n Hn. apply He. apply list_elem_of_fmap.
      by exists (n, e). }
  assert (Hiff : ∀ n, child_key ctype_of self e h = Ok n ↔ (n, e) ∈ order st).
  { intros n. split; [|apply Hin]. intros Hkey.
    destruct Hcases as [[m Hm]|Hnone].
    - rewrite (Hin m Hm) in Hkey. by injection Hkey as ->.
    - by rewrite (Hout Hnone) in Hkey. }
  rewrite Hch. split_and!; [done| |].
  - split.
    + intros Hkey ([n x] & Heq & Hn)%list_elem_of_fmap. simpl in Heq.
      subst x. by rewrite (Hin n Hn) in Hkey.
    + intros He. apply Hout. intros n Hn. apply He.
      apply list_elem_of_fmap. by exists (n, e).
  - intros n Hn%Hiff. destruct (Hord n e Hn) as (Hp & Ha & bucket & Hb & Hbn).
    split_and!; [|done..]. unfold children. rewrite Hst, Hb. simpl.
    by apply elem_of_map_to_list.
Qed.

(** X11. Attaching and asking back: after a successful assignment of an
    object to a name of a block, [child_key] on the object returns that
    name; after the name has then been deleted, [child_key] raises
    [ValueError]. *)
Theorem attach_child_key_detach
    (h h1 : heap) (self : nat) (name : string) (e : nat)
    (st : block_state) :
  heap_inv ctype_of h →
  blocks h !! self = Some st →
  setattr ctype_of self name (VEntity e) h = (Ok (), h1) →
  child_key ctype_of self e h1 = Ok name
  ∧ ∃ h2,
      delattr ctype_of self name h1 = (Ok (), h2)
      ∧ child_key ctype_of self e h2 = Raise ValueError.
Proof.
  intros Hinv Hst Hset.
  assert (Hinv1 : heap_inv ctype_of h1).
  { pose proof (setattr_inv ctype_of h self name e Hinv) as H1.
    by rewrite Hset in H1. }
  assert (∃ st1, blocks h1 !! self = Some st1
                 ∧ attrs st1 !! name = Some (VEntity e)
                 ∧ (name, e) ∈ order st1) as (st1 & Hst1 & Hname1 & Hin1).
  { destruct (parents h !! e) as [p|] eqn:Hp.
    - destruct (attach_with_parent ctype_of h self name e p st Hst Hp)
        as [Hsame Hother].
      destruct (decide (attrs st !! name = Some (VEntity e))) as [Ha|Ha].
      + rewrite (Hsame Ha) in Hset. injection Hset as <-.
        exists st. split_and!; [done..|].
        destruct (Hinv self st Hst) as (_ & _ & _ & Hattr & _).
        by apply Hattr.
      + by rewrite (Hother Ha) in Hset.
    - destruct (setattr_parentless ctype_of h self name e st Hinv Hst Hp)
        as (h0 & st0 & Heq & _ & _ & Hst0 & _ & _).
      rewrite Heq in Hset. injection Hset as <-.
      rewrite (register_result ctype_of h0 self name e st0 Hst0).
      eexists. simpl. rewrite lookup_insert_eq. split; [done|]. simpl.
      rewrite lookup_insert_eq. split; [done|]. apply od_set_elem. }
  split.
  { by apply (child_key_spec h1 self e st1 Hinv1 Hst1). }
  destruct (delattr_bound ctype_of h1 self name st1 Hinv1 Hst1
              ltac:(by rewrite Hname1))
    as (h2 & st2 & Hdel & Hst2 & _ & _ & _ & Hgone).
  exists h2. split; [done|].
  assert (Hinv2 : heap_inv ctype_of h2).
  { pose proof (delattr_inv ctype_of h1 self name Hinv1) as H2.
    by rewrite Hdel in H2. }
  apply (child_key_spec h2 self e st2 Hinv2 Hst2).
  intros n Hn. destruct (Hinv2 self st2 Hst2) as (_ & _ & Hord & _).
  destruct (Hord n e Hn) as (Hp & _). rewrite (Hgone e Hname1) in Hp. done.
Qed.

(** ** Failed calls *)


(** ** Declaration order *)




(** ** One place for every object *)

Lemma children_block h b ctype kv :
  kv ∈ children b ctype h → is_Some (blocks h !! b).
Proof.
  unfold children. destruct (blocks h !! b); [done|].
  by intros ?%elem_of_nil.
Qed.

(** X14. An object is stored at one place: in a store whose indices are
    consistent, and so in every store reached from fresh blocks by
    assignments and deletions, an object listed by [children] of two
    blocks, or under two names, is listed by one block under one name. *)
Theorem child_single_place
    (h : heap) (b b' : nat) (ctype ctype' : ctype_arg) (n n' : string)
    (e : nat) :
  heap_inv ctype_of h →
  (n, e) ∈ children b ctype h →
  (n', e) ∈ children b' ctype' h →
  b = b' ∧ n = n'.
Proof.
  intros Hinv Hin Hin'.
  destruct (children_block _ _ _ _ Hin) as [st Hst].
  destruct (children_block _ _ _ _ Hin') as [st' Hst'].
  destruct (children_parent ctype_of h b ctype st n e Hinv Hst Hin)
    as [Hp _].
  destruct (children_parent ctype_of h b' ctype' st' n' e Hinv Hst' Hin')
    as [Hp' _].
  assert (b = b') as <- by congruence. split; [done|].
  rewrite Hst in Hst'. injection Hst' as <-.
  apply (children_order ctype_of h b ctype st) in Hin; [|done..].
  apply (children_order ctype_of h b ctype' st) in Hin'; [|done..].
  destruct (Hinv b st Hst) as (_ & Hv & _).
  by apply (NoDup_snd_inj (order st) n n' e).
Qed.

(** ** The category buckets *)

(** X15. On a block whose indices are consistent, [children] with a
    category lists, in some order, the pairs of the declaration-order
    list whose object has that category. *)
Theorem children_category_bucket
    (h : heap) (self : nat) (c : ctype) (st : block_state) :
  heap_inv ctype_of h →
  blocks h !! self = Some st →
  children self (Some c) h
  ≡ₚ filter (λ kv, ctype_of kv.2 = c) (children self None h).
Proof.
  intros Hinv Hst. unfold children. rewrite Hst.
  destruct (Hinv self st Hst) as (Hk & Hv & Hord & Hattr & Hbuck & Hne).
  apply NoDup_Permutation.
  - apply NoDup_map_to_list.
  - apply NoDup_filter. by apply NoDup_fmap_1 in Hk.
  - intros [n e]. rewrite elem_of_map_to_list, list_elem_of_filter. simpl.
    split.
    + destruct (byctype st !! c) as [bucket|] eqn:Hb; simpl;
        [|by rewrite lookup_empty].
      intros Hn. by destruct (Hbuck c bucket n e Hb Hn).
    + intros [<- Hin]. destruct (Hord n e Hin) as (_ & _ & bucket & -> & Hn).
      done.
Qed.

(** ** A component that is overwritten by a plain value *)

(** X16. Overwriting a stored component with a plain value does not
    detach it.  After the name of a component has been assigned a value
    that is no component and has then been deleted, the name is not
    bound any more, but [children] still lists the component under it,
    the component still has the block as its parent, and every
    assignment of the component to a block raises [ValueError]. *)
Theorem plain_overwrite_stale_child
    (h : heap) (self : nat) (name : string) (e : nat) (v : value)
    (st : block_state) :
  heap_inv ctype_of h →
  blocks h !! self = Some st →
  attrs st !! name = Some (VEntity e) →
  is_categorized v = false →
  ∃ h1 h2 st2,
    setattr ctype_of self name v h = (Ok (), h1)
    ∧ delattr ctype_of self name h1 = (Ok (), h2)
    ∧ blocks h2 !! self = Some st2
    ∧ attrs st2 !! name = None
    ∧ (name, e) ∈ children self None h2
    ∧ parents h2 !! e = Some self
    ∧ ∀ b name', is_Some (blocks h2 !! b) →
        setattr ctype_of b name' (VEntity e) h2 = (Raise ValueError, h2).
Proof.
  intros Hinv Hst Hname Hcat.
  destruct (Hinv self st Hst) as (Hk & Hv & Hord & Hattr & Hbuck & Hne).
  pose proof (Hattr _ _ Hname) as Hin.
  destruct (Hord _ _ Hin) as (Hp & _).
  set (st1 := {| order := order st; byctype := byctype st;
                 active := active st;
                 attrs := <[name := v]> (attrs st) |}).
  set (h1 := {| blocks := <[self := st1]> (blocks h);
                parents := parents h; log := log h |}).
  set (st2 := {| order := order st; byctype := byctype st;
                 active := active st;
                 attrs := delete name (<[name := v]> (attrs st)) |}).
  set (h2 := {| blocks := <[self := st2]> (<[self := st1]> (blocks h));
                parents := parents h; log := log h |}).
  assert (Hset : setattr ctype_of self name v h = (Ok (), h1)).
  { unfold setattr, object_setattr. rewrite Hst. by destruct v. }
  assert (Hdel : delattr ctype_of self name h1 = (Ok (), h2)).
  { unfold delattr. simpl. rewrite lookup_insert_eq. simpl.
    rewrite lookup_insert_eq. by destruct v. }
  exists h1, h2, st2. split_and!; try done.
  - simpl. by rewrite lookup_insert_eq.
  - simpl. by rewrite lookup_delete_eq.
  - unfold children. simpl. by rewrite lookup_insert_eq.
  - intros b name' [stb Hstb]. unfold setattr. rewrite Hstb. simpl.
    rewrite Hp. rewrite bool_decide_eq_false_2; [done|].
    intros Hbound. simpl in Hstb.
    destruct (decide (b = self)) as [->|Hb].
    + rewrite lookup_insert_eq in Hstb. injection Hstb as <-.
      simpl in Hbound. destruct (decide (name' = name)) as [->|Hn].
      * by rewrite lookup_delete_eq in Hbound.
      * rewrite lookup_delete_ne, lookup_insert_ne in Hbound by done.
        apply Hattr in Hbound.
        by apply Hn, (NoDup_snd_inj (order st) name' name e).
    + rewrite !lookup_insert_ne in Hstb by done.
      destruct (Hinv b stb Hstb) as (_ & _ & Hordb & Hattrb & _).
      apply Hattrb in Hbound. destruct (Hordb _ _ Hbound) as (Hpb & _).
      congruence.
Qed.

End block_facts.

Lemma child_key_children_witness :
  (∀ n, child_key example_ctype 1 10 example_heap = Ok n
        ↔ (n, 10) ∈ children 1 None example_heap)
  ∧ (child_key example_ctype 1 10 example_heap = Raise ValueError
     ↔ 10 ∉ (children 1 None example_heap).*2)
  ∧ (∀ n, child_key example_ctype 1 10 example_heap = Ok n →
       (n, 10) ∈ children 1 (Some (example_ctype 10)) example_heap
       ∧ attrs (mk_block [("x", 10)]
                         {[ Category "Var" := {[ "x" := 10 ]} ]} true
                         {[ "x" := VEntity 10 ]}) !! n = Some (VEntity 10)
       ∧ parents example_heap !! 10 = Some 1).
Proof.
  apply (child_key_children example_ctype example_heap 1 10
           (mk_block [("x", 10)]
                     {[ Category "Var" := {[ "x" := 10 ]} ]} true
                     {[ "x" := VEntity 10 ]})
           heap_inv_example_heap).
  vm_compute. reflexivity.
Defined.

Lemma attach_child_key_detach_witness :
  let h1 := (setattr example_ctype 2 "y" (VEntity 11) example_heap).2 in
  child_key example_ctype 2 11 h1 = Ok "y"
  ∧ ∃ h2,
      delattr example_ctype 2 "y" h1 = (Ok (), h2)
      ∧ child_key example_ctype 2 11 h2 = Raise ValueError.
Proof.
  apply (attach_child_key_detach example_ctype example_heap
           (setattr example_ctype 2 "y" (VEntity 11) example_heap).2
           2 "y" 11 fresh_block heap_inv_example_heap).
  - vm_compute. reflexivity.
  - vm_compute. reflexivity.
Defined.



Lemma child_single_place_witness : 1 = 1 ∧ "x" = "x".
Proof.
  apply (child_single_place example_ctype example_heap 1 1 None
           (Some (Category "Var")) "x" "x" 10 heap_inv_example_heap).
  - apply (bool_decide_unpack _). vm_compute. exact I.
  - apply (bool_decide_unpack _). vm_compute. exact I.
Defined.

Lemma children_category_bucket_witness :
  children 1 (Some (Category "Var")) example_heap
  ≡ₚ filter (λ kv, example_ctype kv.2 = Category "Var")
            (children 1 None example_heap).
Proof.
  apply (children_category_bucket example_ctype example_heap 1
           (Category "Var")
           (mk_block [("x", 10)]
                     {[ Category "Var" := {[ "x" := 10 ]} ]} true
                     {[ "x" := VEntity 10 ]})
           heap_inv_example_heap).
  vm_compute. reflexivity.
Defined.

Lemma plain_overwrite_stale_child_witness :
  let h1 := (setattr example_ctype 1 "x" (VPlain 7) example_heap).2 in
  let h2 := (delattr example_ctype 1 "x" h1).2 in
  ("x", 10) ∈ children 1 None h2
  ∧ parents h2 !! 10 = Some 1
  ∧ setattr example_ctype 2 "x" (VEntity 10) h2 = (Raise ValueError, h2).
Proof.
  intros h1' h2'.
  destruct (plain_overwrite_stale_child example_ctype example_heap 1 "x" 10
              (VPlain 7)
              (mk_block [("x", 10)]
                        {[ Category "Var" := {[ "x" := 10 ]} ]} true
                        {[ "x" := VEntity 10 ]})
              heap_inv_example_heap)
    as (h1 & h2 & st2 & Hset & Hdel & Hst2 & _ & Hin & Hp & Hagain).
  - vm_compute. reflexivity.
  - vm_compute. reflexivity.
  - reflexivity.
  - assert (E1 : h1 = h1') by (unfold h1'; by rewrite Hset).
    assert (E2 : h2 = h2') by (unfold h2'; rewrite <-E1; by rewrite Hdel).
    rewrite <-E2. split_and!; [exact Hin|exact Hp|].
    apply Hagain. rewrite E2. vm_compute. eexists. reflexivity.
Defined.

End BlockFacts.

Module StaticFacts.
Import Heap HeapFacts.

(** ** Named entries *)










(** ** [_getattrs] *)






Section static_facts.

Variable ctype_of : nat → ctype.
Variable has_dict : bool.
Variable self : nat.




End static_facts.




End StaticFacts.
